(** * Message channels of rc-patterns: the mediator chatroom and the observer
    click list

    A shallow embedding of [src/Mediator/mediator.js] and
    [src/Observer/observer.js].  JavaScript objects are identified by
    reference; the mutable parts of the objects live in an explicit world
    that every method threads, together with its completion (normal, or an
    exception that unwinds to the caller). *)

From Stdlib Require Import Ascii.
From stdpp Require Import base decidable option list strings gmap fin_maps sorting.

Open Scope string_scope.
Open Scope list_scope.

(** ** The fragment of JavaScript both files rely on *)
Module JS.

Inductive error :=
| TypeError       (* raised by the engine: calling or reading through a non-object *)
| UserError.      (* raised by a [throw] of application code *)

Inductive completion :=
| Normal
| Thrown (e : error).

#[global] Instance error_eq_dec : EqDecision error.
Proof. solve_decision. Defined.

#[global] Instance completion_eq_dec : EqDecision completion.
Proof. solve_decision. Defined.

(** *** Array indices among property keys

    A property key is an array index when it is the canonical decimal
    spelling of an integer below 2^32 - 1: digits only, no leading zero
    except for "0" itself. *)

Definition digit_value (a : ascii) : option N :=
  let n := N_of_ascii a in
  if ((48 <=? n) && (n <=? 57))%N then Some (n - 48)%N else None.

Fixpoint parse_digits (s : string) (acc : N) : option N :=
  match s with
  | EmptyString => Some acc
  | String a s' =>
      match digit_value a with
      | Some d => parse_digits s' (10 * acc + d)%N
      | None => None
      end
  end.

Definition array_index (key : string) : option N :=
  match key with
  | EmptyString => None
  | String "0" EmptyString => Some 0%N
  | String "0" _ => None
  | _ =>
      match parse_digits key 0 with
      | Some n => if (n <? 2 ^ 32 - 1)%N then Some n else None
      | None => None
      end
  end.

Definition is_array_index (key : string) : bool :=
  match array_index key with Some _ => true | None => false end.

(** *** Own properties of an ordinary object

    The properties are kept in the order in which they were created.
    Assigning to an existing key replaces the value where it stands;
    assigning to a new key creates the property at the end. *)

Section Properties.
Context {V : Type}.

Fixpoint get (key : string) (o : list (string * V)) : option V :=
  match o with
  | [] => None
  | (k, v) :: o' => if bool_decide (k = key) then Some v else get key o'
  end.

Fixpoint set (key : string) (v : V) (o : list (string * V)) : list (string * V) :=
  match o with
  | [] => [(key, v)]
  | (k, v') :: o' =>
      if bool_decide (k = key) then (k, v) :: o' else (k, v') :: set key v o'
  end.

End Properties.

(** Enumeration order of own keys (what [for ... in] and [Object.keys]
    follow): the array indices in ascending numeric order, then every other
    string key in creation order. *)

Fixpoint insert_index (e : N * string) (l : list (N * string)) : list (N * string) :=
  match l with
  | [] => [e]
  | e' :: l' => if (e.1 <=? e'.1)%N then e :: l else e' :: insert_index e l'
  end.

Definition sort_indices (l : list (N * string)) : list (N * string) :=
  foldr insert_index [] l.

Definition index_keys (keys : list string) : list (N * string) :=
  omap (λ k, match array_index k with Some n => Some (n, k) | None => None end) keys.

Definition own_property_keys (keys : list string) : list string :=
  (sort_indices (index_keys keys)).*2
  ++ List.filter (λ k, negb (is_array_index k)) keys.

End JS.

(** ** src/Mediator/mediator.js *)
Module Mediator.
Import JS.

(** A [Participant] object.  [new Participant(name)] stores the name, which
    no code of the file assigns again; [oid] tells apart the objects that
    were constructed with the same name, so that equality of these records
    is reference equality ([===]).  The mutable field [chatroom] lives in
    the world. *)
Record Participant := new_Participant { name : string; oid : nat }.

#[global] Instance Participant_eq_dec : EqDecision Participant.
Proof. solve_decision. Defined.

#[global] Instance Participant_countable : Countable Participant.
Proof.
  refine (inj_countable' (λ p, (name p, oid p))
                         (λ '(n, i), new_Participant n i) _).
  by intros [].
Defined.

(** The closure variable [participants] of one [Chatroom()] call: an
    ordinary object used as a map.  Assigning the key ["__proto__"] goes
    through the accessor of [Object.prototype] and sets the prototype of
    the object instead of creating an own property. *)
Record registry := Registry {
  own : list (string * Participant);
  proto : option Participant
}.

Definition empty_registry : registry := Registry [] None.

(** One call of [receive]: recipient, message, sender. *)
Definition delivery : Type := Participant * string * Participant.

Record world := World {
  chatroom_of : gmap Participant nat;  (* the field [chatroom]; absent means [null] *)
  rooms : gmap nat registry;           (* [participants] of every chatroom object *)
  console : list string;               (* lines written by [console.log] *)
  calls : list delivery                (* record of the calls of [receive], oldest first *)
}.

Definition initial_world : world := World ∅ ∅ [] [].

(** [participants] of the chatroom [c]; a chatroom that has seen no
    [register] yet still has the [{}] of its construction. *)
Definition participants (w : world) (c : nat) : registry :=
  default empty_registry (rooms w !! c).

(** A method body: it ends normally or throws, and leaves a world. *)
Definition M : Type := world → completion * world.

Definition ret : M := λ w, (Normal, w).
Definition throw (e : error) : M := λ w, (Thrown e, w).

Definition and_then (m1 m2 : M) : M :=
  λ w, match m1 w with
       | (Normal, w') => m2 w'
       | (Thrown e, w') => (Thrown e, w')
       end.

Declare Scope method_scope.
Delimit Scope method_scope with M.
Bind Scope method_scope with M.
Notation "m1 ;; m2" := (and_then m1 m2)
  (at level 100, m2 at level 200, right associativity) : method_scope.
Local Open Scope method_scope.

Fixpoint for_each {A : Type} (body : A → M) (l : list A) : M :=
  match l with
  | [] => ret
  | x :: l' => body x ;; for_each body l'
  end.

(** [Participant.prototype.receive] *)
Definition log_line (this : Participant) (message : string) (from : Participant) : string :=
  name from +:+ " to " +:+ name this +:+ ": " +:+ message.

Definition receive (this : Participant) (message : string) (from : Participant) : M :=
  λ w, (Normal,
        World (chatroom_of w) (rooms w)
              (console w ++ [log_line this message from])
              (calls w ++ [(this, message, from)])).

(** [register] of the object returned by [Chatroom()], called as a method of
    the chatroom [this]. *)
Definition register (this : nat) (participant : Participant) : M :=
  λ w,
    let r := participants w this in
    let r' :=
      if bool_decide (name participant = "__proto__")
      then Registry (own r) (Some participant)
      else Registry (set (name participant) participant (own r)) (proto r) in
    (Normal,
     World (<[participant := this]> (chatroom_of w))
           (<[this := r']> (rooms w))
           (console w) (calls w)).

(** The third argument of [send]. *)
Inductive target :=
| Absent                      (* omitted, [undefined] *)
| Null                        (* [null] *)
| Target (to : Participant).

(** Keys that [for (key in participants)] finds on the prototype chain once
    a participant has become the prototype: its own [name] and [chatroom],
    then [send] and [receive] of [Participant.prototype]; a key that is also
    an own key is visited only once, as the own key. *)
Definition inherited_keys (r : registry) : list string :=
  match proto r with
  | None => []
  | Some _ =>
      List.filter (λ k, bool_decide (k ∉ (own r).*1))
                  ["name"; "chatroom"; "send"; "receive"]
  end.

Definition for_in_keys (r : registry) : list string :=
  own_property_keys (own r).*1 ++ inherited_keys r.

(** The body of the broadcast loop for one key.  An own key holds a
    participant.  An inherited key holds a string, a chatroom or a function:
    it differs from [from], and calling its missing [receive] throws. *)
Definition broadcast_step (this : nat) (message : string) (from : Participant)
    (key : string) : M :=
  λ w, match get key (own (participants w this)) with
       | Some p =>
           if bool_decide (p ≠ from) then receive p message from w else (Normal, w)
       | None => (Thrown TypeError, w)
       end.

(** The [else] branch of [send]: the loop [for (key in participants)]. *)
Definition broadcast (this : nat) (message : string) (from : Participant) : M :=
  λ w, for_each (broadcast_step this message from)
                (for_in_keys (participants w this)) w.

(** [send] of the object returned by [Chatroom()]: [if (to)] holds exactly
    for an object. *)
Definition send (this : nat) (message : string) (from : Participant) (to : target) : M :=
  match to with
  | Target p => receive p message from
  | Absent | Null => broadcast this message from
  end.

(** [Participant.prototype.send] *)
Definition Participant_send (this : Participant) (message : string) (to : target) : M :=
  λ w, match chatroom_of w !! this with
       | Some c => send c message this to w
       | None => (Thrown TypeError, w)
       end.

(** [new Chatroom()]: a chatroom object that no other shares. *)
Definition Chatroom (w : world) : nat * world :=
  let c := fresh (dom (rooms w)) in
  (c, World (chatroom_of w) (<[c := empty_registry]> (rooms w)) (console w) (calls w)).

(** What a client can ask of a chatroom object.  The object literal that
    [Chatroom()] returns has the two properties [register] and [send]; any
    other method name, [unregister] included, reads as [undefined], and
    calling it throws. *)
Definition chatroom_interface : list string := ["register"; "send"].

Inductive request :=
| Register (participant : Participant)
| Send (message : string) (from : Participant) (to : target)
| Unregister (identity : string).

Definition method_name (r : request) : string :=
  match r with
  | Register _ => "register"
  | Send _ _ _ => "send"
  | Unregister _ => "unregister"
  end.

Definition perform (this : nat) (r : request) : M :=
  match r with
  | Register p => register this p
  | Send message from to => send this message from to
  | Unregister _ => throw TypeError
  end.

(** [run]: the demonstration at the end of the file. *)
Definition yoko := new_Participant "Yoko" 0.
Definition john := new_Participant "John" 1.
Definition paul := new_Participant "Paul" 2.
Definition ringo := new_Participant "Ringo" 3.

Definition run : completion * world :=
       let '(chatroom, w) := Chatroom initial_world in
       (register chatroom yoko ;;
        register chatroom john ;;
        register chatroom paul ;;
        register chatroom ringo ;;
        Participant_send yoko "All you need is love." Absent ;;
        Participant_send yoko "I love you John." Absent ;;
        Participant_send john "Hey, no need to broadcast" (Target yoko) ;;
        Participant_send paul "Ha, I heard that!" Absent ;;
        Participant_send ringo "Paul, what do you think?" (Target paul)) w.

(** Shape of the registries the code can build: one own property per
    name, stored under the name of its participant, and never the key
    ["__proto__"]. *)
Record registry_ok (r : registry) : Prop := {
  ok_nodup : NoDup (own r).*1;
  ok_named : Forall (λ e, e.1 = name e.2) (own r);
  ok_no_proto_key : "__proto__" ∉ (own r).*1
}.

(** A registry entry: a participant stored under some own key. *)
Definition entry (r : registry) (p : Participant) : Prop :=
  ∃ k, get k (own r) = Some p.

(** The participants in the order in which the broadcast loop meets them. *)
Definition entries_in_order (r : registry) : list Participant :=
  omap (λ k, get k (own r)) (own_property_keys (own r).*1).

Definition deliveries (message : string) (from : Participant) (ps : list Participant)
  : list delivery :=
  (λ p, (p, message, from)) <$> ps.

(** The world after the calls [ds] of [receive]. *)
Definition log_deliveries (ds : list delivery) (w : world) : world :=
  World (chatroom_of w) (rooms w)
        (console w ++ ((λ d : delivery, log_line d.1.1 d.1.2 d.2) <$> ds))
        (calls w ++ ds).

(** A client that sends requests to chatrooms one after the other and
    carries on after a request that threw. *)
Definition session (reqs : list (nat * request)) (w : world) : world :=
  foldl (λ w cr, (perform cr.1 cr.2 w).2) w reqs.

(** The calls of [receive] that a method made when run from [w]. *)
Definition new_calls (w : world) (m : M) : list delivery :=
  drop (length (calls w)) (calls (m w).2).

End Mediator.

(** ** src/Observer/observer.js *)
Module Observer.
Import JS.

(** What [subscribe] can be handed: nothing checks that it is a function.
    A function is identified by reference.  The values are the primitive
    values and the functions; objects that are no functions are left out. *)
Inductive value :=
| VUndefined
| VNull
| VBool (b : bool)
| VNumber (z : Z)
| VNaN
| VString (s : string)
| VFunction (f : nat).

#[global] Instance value_eq_dec : EqDecision value.
Proof. solve_decision. Defined.

(** [ToBoolean] *)
Definition truthy (v : value) : bool :=
  match v with
  | VUndefined | VNull | VNaN => false
  | VBool b => b
  | VNumber z => negb (z =? 0)%Z
  | VString s => negb (bool_decide (s = ""))
  | VFunction _ => true
  end.

(** [===] *)
Definition strict_equal (a b : value) : bool :=
  match a, b with
  | VNaN, _ | _, VNaN => false
  | _, _ => bool_decide (a = b)
  end.

(** The [this] a handler runs with. *)
Inductive scope :=
| GlobalObject
| Bound (thisObj : value).

(** One call of a handler: the function, its [this], the event. *)
Definition invocation : Type := nat * scope * value.

(** A [Click] object.  Its field [handlers] refers to an array of the
    store: [subscribe] pushes onto that array where it stands, [unsubscribe]
    makes the field refer to a new one. *)
Record world := World {
  arrays : gmap nat (list value);
  handlers : nat;
  console : list string;
  invoked : list invocation
}.

(** [new Click()] *)
Definition Click : world := World {[ 0 := [] ]} 0 [] [].

(** The array that the field [handlers] refers to. *)
Definition this_handlers (w : world) : list value := arrays w !!! handlers w.

Definition M : Type := world → completion * world.

Definition ret : M := λ w, (Normal, w).
Definition throw (e : error) : M := λ w, (Thrown e, w).

Definition and_then (m1 m2 : M) : M :=
  λ w, match m1 w with
       | (Normal, w') => m2 w'
       | (Thrown e, w') => (Thrown e, w')
       end.

Declare Scope observer_scope.
Delimit Scope observer_scope with O.
Bind Scope observer_scope with M.
Notation "m1 ;; m2" := (and_then m1 m2)
  (at level 100, m2 at level 200, right associativity) : observer_scope.
Local Open Scope observer_scope.

Fixpoint for_each {A : Type} (body : A → M) (l : list A) : M :=
  match l with
  | [] => ret
  | x :: l' => body x ;; for_each body l'
  end.

(** [subscribe]: [this.handlers.push(fn)] *)
Definition subscribe (fn : value) : M :=
  λ w, (Normal,
        World (<[handlers w := this_handlers w ++ [fn]]> (arrays w))
              (handlers w) (console w) (invoked w)).

(** The callback that [unsubscribe] hands to [filter]: it returns the item
    itself, or nothing ([undefined]) for an item that is [fn]. *)
Definition unsubscribe_callback (fn item : value) : value :=
  if negb (strict_equal item fn) then item else VUndefined.

(** [Array.prototype.filter] keeps the items whose callback result is
    truthy, in a new array. *)
Definition array_filter (callback : value → value) (l : list value) : list value :=
  List.filter (λ item, truthy (callback item)) l.

Definition new_array (w : world) : nat :=
  fresh ({[ handlers w ]} ∪ dom (arrays w)).

(** [unsubscribe] *)
Definition unsubscribe (fn : value) : M :=
  λ w, let a := new_array w in
       (Normal,
        World (<[a := array_filter (unsubscribe_callback fn) (this_handlers w)]> (arrays w))
              a (console w) (invoked w)).

(** What the body of a handler does, one statement after the other; a
    handler reaches the click object through its methods. *)
Inductive action :=
| Do_subscribe (fn : value)
| Do_unsubscribe (fn : value)
| Do_log (line : string)
| Do_throw.

#[global] Instance action_eq_dec : EqDecision action.
Proof. solve_decision. Defined.

Definition perform (a : action) : M :=
  match a with
  | Do_subscribe fn => subscribe fn
  | Do_unsubscribe fn => unsubscribe fn
  | Do_log line =>
      λ w, (Normal, World (arrays w) (handlers w) (console w ++ [line]) (invoked w))
  | Do_throw => throw UserError
  end.

(** [thisObj || global || window] under Node, where [global] is the global
    object: the scope argument when it is truthy, the global object
    otherwise. *)
Definition scope_of (thisObj : value) : scope :=
  if truthy thisObj then Bound thisObj else GlobalObject.

(** The calls that a pass over the functions of [l] consists of. *)
Definition invocations (sc : scope) (o : value) (l : list value) : list invocation :=
  omap (λ item, match item with VFunction f => Some (f, sc, o) | _ => None end) l.

Section Fire.

(** The bodies of the functions: what the function [f] does when it is
    called with an event. *)
Variable code : nat → value → list action.

(** [item.call(scope, o)]: a function runs its body; a primitive value has
    no callable [call], and the call throws. *)
Definition call (item : value) (sc : scope) (o : value) : M :=
  match item with
  | VFunction f =>
      λ w, for_each perform (code f o)
             (World (arrays w) (handlers w) (console w) (invoked w ++ [(f, sc, o)]))
  | _ => throw TypeError
  end.

(** One round of [Array.prototype.forEach] on the array [a]: the index is
    read from the array as it is now; an index that is gone is skipped. *)
Definition forEach_step (a : nat) (sc : scope) (o : value) (k : nat) : M :=
  λ w, match (arrays w !!! a) !! k with
       | Some item => call item sc o w
       | None => (Normal, w)
       end.

(** [fire]: [forEach] reads the array and its length once, on entry. *)
Definition fire (o thisObj : value) : M :=
  λ w, let sc := scope_of thisObj in
       let a := handlers w in
       let len := length (arrays w !!! a) in
       for_each (forEach_step a sc o) (seq 0 len) w.

(** Dispatch over a list of handlers fixed beforehand. *)
Definition dispatch (sc : scope) (o : value) (l : list value) : M :=
  for_each (λ item, call item sc o) l.

(** The pass in the words of the specification: the handlers are fixed
    when [fire] is entered and are called in that order; what a handler
    subscribes or unsubscribes plays no part.  The pass ends at the first
    entry that is no function or whose body throws. *)
Fixpoint snapshot_pass (sc : scope) (o : value) (l : list value)
  : completion * list invocation :=
  match l with
  | [] => (Normal, [])
  | VFunction f :: l' =>
      if bool_decide (Do_throw ∈ code f o)
      then (Thrown UserError, [(f, sc, o)])
      else let r := snapshot_pass sc o l' in (r.1, (f, sc, o) :: r.2)
  | _ :: _ => (Thrown TypeError, [])
  end.

(** A handler that is a function and does not throw on the event [o]. *)
Definition quiet (o : value) (item : value) : Prop :=
  ∃ f, item = VFunction f ∧ Do_throw ∉ code f o.

End Fire.

(** The calls of handlers that a method made when run from [w]. *)
Definition new_invoked (w : world) (m : M) : list invocation :=
  drop (length (invoked w)) (invoked (m w).2).

(** [run]: the demonstration at the end of the file. *)
Definition clickHandler : value := VFunction 0.

Definition run_code (f : nat) (item : value) : list action :=
  match f, item with
  | 0, VString s => [Do_log ("fired: " +:+ s)]
  | _, _ => []
  end.

Definition run : completion * world :=
       (subscribe clickHandler ;;
        fire run_code (VString "event #1") VUndefined ;;
        unsubscribe clickHandler ;;
        fire run_code (VString "event #2") VUndefined ;;
        subscribe clickHandler ;;
        fire run_code (VString "event #3") VUndefined) Click.

End Observer.

(** ** src/Iterator/iterator.js *)
Module Iterator.

Section Iterator.
(** The items are any values; [undefined] is what reading past the end
    of the array gives. *)
Context {V : Type} (undefined : V).

(** An [Iterator] object: its fields [index] and [items]. *)
Record iterator := Build_iterator { index : nat; items : list V }.

(** [new Iterator(items)] *)
Definition new_Iterator (items : list V) : iterator := Build_iterator 0 items.

(** [next]: [return this.items[this.index++]] *)
Definition next (this : iterator) : V * iterator :=
  (default undefined (items this !! index this),
   Build_iterator (S (index this)) (items this)).

(** [hasNext]: [this.index <= this.items.length] *)
Definition hasNext (this : iterator) : bool :=
  (index this <=? length (items this))%nat.

(** [reset] *)
Definition reset (this : iterator) : iterator := Build_iterator 0 (items this).

(** [first]: [this.reset(); return this.next()] *)
Definition first (this : iterator) : V * iterator := next (reset this).

(** The loop of [each],
    [for (var item = this.first(); this.hasNext(); item = this.next()) callback(item)],
    from the test of [hasNext] on.  The callback acts on a state [St] of
    its own and does not reach the iterator.  [None]: the fuel ran out. *)
Fixpoint each_loop {St : Type} (callback : V → St → St) (fuel : nat)
    (item : V) (this : iterator) (s : St) : option (St * iterator) :=
  match fuel with
  | 0 => None
  | S fuel' =>
      if hasNext this
      then let s' := callback item s in
           let '(item', this') := next this in
           each_loop callback fuel' item' this' s'
      else Some (s, this)
  end.

(** [each] *)
Definition each {St : Type} (callback : V → St → St) (fuel : nat)
    (this : iterator) (s : St) : option (St * iterator) :=
  let '(item, this') := first this in
  each_loop callback fuel item this' s.

(** [n] calls of [next], the results dropped. *)
Definition advance (n : nat) (this : iterator) : iterator :=
  Nat.iter n (λ it, (next it).2) this.

End Iterator.

End Iterator.

(** ** Statements under test and the scenarios they are tried on *)
Module Scenarios.
Import JS.

Module Chat.
Import Mediator.

(** Two participant objects constructed with the same name. *)
Definition first_x := new_Participant "X" 1.
Definition second_x := new_Participant "X" 2.

(** [register(first_x); register(second_x)] on a new chatroom. *)
Definition overwritten : world :=
  (register 0 second_x (register 0 first_x initial_world).2).2.

(** Self-exclusion by name: no call of the broadcast goes to a participant
    that bears the name of the sender. *)
Definition excludes_sender_by_name (w : world) (c : nat) (message : string)
    (from : Participant) : Prop :=
  ∀ d : delivery,
    d ∈ new_calls w (send c message from Absent) → name d.1.1 ≠ name from.

(** Participants whose names are array indices. *)
Definition alpha := new_Participant "a" 0.
Definition two := new_Participant "2" 1.
Definition one := new_Participant "1" 2.

(** Delivery in registration order: after registering [ps] in a chatroom,
    a broadcast from [A] calls the others in the order of [ps]. *)
Definition delivers_in_registration_order (w : world) (c : nat)
    (ps : list Participant) (A : Participant) (message : string) : Prop :=
  new_calls (for_each (register c) ps w).2 (send c message A Absent)
  = deliveries message A (filter (λ p, p ≠ A) ps).

(** [register(yoko); register(john)] on a new chatroom. *)
Definition duo : world :=
  (register 0 john (register 0 yoko initial_world).2).2.

(** An [unregister] that works: after [register(p)] the request ends
    normally and [p] is no longer an entry. *)
Definition unregister_removes (w : world) (c : nat) (p : Participant) : Prop :=
  let w1 := (register c p w).2 in
  let r := perform c (Unregister (name p)) w1 in
  r.1 = Normal ∧ ¬ entry (participants r.2 c) p.

(** A null target is refused: [send] throws and delivers nothing. *)
Definition null_target_is_rejected (w : world) (c : nat) (message : string)
    (from : Participant) : Prop :=
  (∃ e, (send c message from Null w).1 = Thrown e)
  ∧ new_calls w (send c message from Null) = [].

End Chat.

Module Clicks.
Import Observer.

(** Two subscribed functions [0] and [1]. *)
Definition two_handlers : world :=
  (subscribe (VFunction 1) (subscribe (VFunction 0) Click).2).2.

(** The function [0] throws; the function [1] writes a line. *)
Definition faulty_code (f : nat) (o : value) : list action :=
  match f with
  | 0 => [Do_throw]
  | _ => [Do_log "second"]
  end.

(** Isolation of failures: the pass ends normally for the caller of [fire]
    and has called every function that was subscribed. *)
Definition isolates_failures (code : nat → value → list action) (w : world)
    (o thisObj : value) : Prop :=
  (fire code o thisObj w).1 = Normal
  ∧ new_invoked w (fire code o thisObj)
    = invocations (scope_of thisObj) o (this_handlers w).

(** The function [0] unsubscribes itself and the function [1]; the
    function [1] writes a line. *)
Definition unsubscribing_code (f : nat) (o : value) : list action :=
  match f with
  | 0 => [Do_unsubscribe (VFunction 0); Do_unsubscribe (VFunction 1)]
  | _ => [Do_log "second"]
  end.

End Clicks.

End Scenarios.

(** ** More scenarios *)
Module MoreScenarios.
Import JS.

Module Chat.
Import Mediator Scenarios.Chat.

(** The numeric value of a key that is an array index. *)
Definition index_value (key : string) : N := default 0%N (array_index key).

(** A participant whose name is the key of the prototype accessor. *)
Definition proto_named := new_Participant "__proto__" 7.

(** Every participant that is an entry of a registry has a chatroom. *)
Definition entries_linked (w : world) : Prop :=
  ∀ c p, entry (participants w c) p → is_Some (chatroom_of w !! p).

(** ["a"], ["2"] and ["1"] registered in this order in the chatroom [0]. *)
Definition numbered : world :=
  (for_each (register 0) [alpha; two; one] initial_world).2.

(** Yoko alone in the chatroom [0]. *)
Definition solo : world := (register 0 yoko initial_world).2.

End Chat.

Module Clicks.
Import Observer Scenarios.Clicks.

(** What an action of a handler does to the content of the handler list. *)
Definition effect (a : action) (l : list value) : list value :=
  match a with
  | Do_subscribe fn => l ++ [fn]
  | Do_unsubscribe fn => array_filter (unsubscribe_callback fn) l
  | Do_log _ | Do_throw => l
  end.

Definition effects (acts : list action) (l : list value) : list value :=
  foldl (λ l a, effect a l) l acts.

(** The actions of a pass over [l]: those of its functions, in call
    order. *)
Definition pass_actions (code : nat → value → list action) (o : value)
    (l : list value) : list action :=
  l ≫= (λ item, match item with VFunction f => code f o | _ => [] end).

(** The values that are no objects: everything of [value] but the
    functions. *)
Definition is_primitive (v : value) : bool :=
  match v with
  | VFunction _ => false
  | _ => true
  end.

(** A click list with a function, the number zero and a second function. *)
Definition with_zero : world :=
  (subscribe (VFunction 1)
     (subscribe (VNumber 0) (subscribe (VFunction 0) Click).2).2).2.

(** Both functions write a line. *)
Definition logging_code (f : nat) (o : value) : list action := [Do_log "called"].

End Clicks.

End MoreScenarios.

(** * Properties *)

(** ** Property keys and own properties *)
Module JSFacts.
Import JS.

Section Properties.
Context {V : Type}.
Implicit Types (o : list (string * V)) (key : string) (v : V).

Lemma get_Some_elem_of key v o : get key o = Some v → (key, v) ∈ o.
Proof.
  induction o as [|[k v'] o IH]; simpl; [done|].
  case_bool_decide as Hk.
  - intros [= ->]. subst k. left.
  - intros H. right. by apply IH.
Qed.

Lemma get_Some_key key v o : get key o = Some v → key ∈ o.*1.
Proof.
  intros H%get_Some_elem_of. apply list_elem_of_fmap. by exists (key, v).
Qed.

Lemma get_None key o : key ∉ o.*1 → get key o = None.
Proof.
  induction o as [|[k v'] o IH]; simpl; [done|].
  intros Hnot. apply not_elem_of_cons in Hnot as [Hne Hnot].
  rewrite bool_decide_false; [by apply IH | congruence].
Qed.

Lemma get_is_Some key o : key ∈ o.*1 → is_Some (get key o).
Proof.
  induction o as [|[k v'] o IH]; simpl.
  - by intros ?%elem_of_nil.
  - intros [->|Hin]%elem_of_cons.
    + rewrite bool_decide_true; eauto.
    + case_bool_decide; eauto.
Qed.

Lemma get_elem_of_NoDup key v o : NoDup o.*1 → (key, v) ∈ o → get key o = Some v.
Proof.
  induction o as [|[k v'] o IH]; simpl.
  - by intros _ ?%elem_of_nil.
  - intros [Hk Hnd]%NoDup_cons [[= -> ->]|Hin]%elem_of_cons.
    + by rewrite bool_decide_true.
    + rewrite bool_decide_false; [by apply IH|].
      intros ->. apply Hk. apply list_elem_of_fmap. by exists (key, v).
Qed.

(** Assigning to a key that the object does not have creates the property
    after all the others. *)
Lemma set_fresh key v o : key ∉ o.*1 → set key v o = o ++ [(key, v)].
Proof.
  induction o as [|[k v'] o IH]; simpl; [done|].
  intros Hnot. apply not_elem_of_cons in Hnot as [Hne Hnot].
  rewrite bool_decide_false; [|congruence]. by rewrite IH.
Qed.

(** Assigning to a key that the object has keeps every key where it is. *)
Lemma set_keys_present key v o : key ∈ o.*1 → (set key v o).*1 = o.*1.
Proof.
  induction o as [|[k v'] o IH]; csimpl.
  - by intros ?%elem_of_nil.
  - case_bool_decide as Hk; [done|].
    intros [->|Hin]%elem_of_cons; [done|]. csimpl. by rewrite IH.
Qed.

Lemma set_present key v v0 o :
  get key o = Some v0 →
  ∃ i, o !! i = Some (key, v0) ∧ set key v o = <[i := (key, v)]> o.
Proof.
  induction o as [|[k v'] o IH]; simpl; [done|].
  case_bool_decide as Hk.
  - intros [= ->]. subst k. by exists 0.
  - intros H. destruct (IH H) as (i & Hi & Hset).
    exists (S i). simpl. by rewrite Hset.
Qed.

Lemma get_set_eq key v o : get key (set key v o) = Some v.
Proof.
  induction o as [|[k v'] o IH]; simpl.
  - by rewrite bool_decide_true.
  - case_bool_decide as Hk; simpl.
    + by rewrite bool_decide_true.
    + by rewrite bool_decide_false.
Qed.

Lemma get_set_ne key key' v o : key ≠ key' → get key' (set key v o) = get key' o.
Proof.
  intros Hne. induction o as [|[k v'] o IH]; simpl.
  - rewrite bool_decide_false; done.
  - case_bool_decide as Hk; simpl.
    + subst k. by rewrite !bool_decide_false.
    + by rewrite IH.
Qed.

Lemma set_keys_elem_of key key' v o :
  key' ∈ (set key v o).*1 ↔ key' = key ∨ key' ∈ o.*1.
Proof.
  induction o as [|[k v'] o IH]; simpl.
  - rewrite elem_of_cons. set_solver.
  - case_bool_decide as Hk; simpl; rewrite !elem_of_cons.
    + subst k. tauto.
    + rewrite IH. tauto.
Qed.

Lemma set_elem_of key key' v v' o :
  (key', v') ∈ set key v o → (key', v') = (key, v) ∨ (key', v') ∈ o.
Proof.
  induction o as [|[k v0] o IH]; simpl.
  - intros ?%list_elem_of_singleton. by left.
  - case_bool_decide as Hk; rewrite !elem_of_cons.
    + subst k. intros [?|?]; [by left | by right; right].
    + intros [?|H]; [by right; left|]. destruct (IH H); [by left | by right; right].
Qed.

Lemma set_length_present key v o : key ∈ o.*1 → length (set key v o) = length o.
Proof.
  intros Hin. assert (length (set key v o).*1 = length o.*1) as Hlen
    by (by rewrite set_keys_present).
  by rewrite !length_fmap in Hlen.
Qed.

End Properties.

(** The enumeration is a rearrangement of the keys. *)
Lemma insert_index_elem_of e e' l : e' ∈ insert_index e l ↔ e' = e ∨ e' ∈ l.
Proof.
  induction l as [|x l IH]; simpl.
  - set_solver.
  - destruct (e.1 <=? x.1)%N; rewrite !elem_of_cons; [tauto|].
    rewrite IH. tauto.
Qed.

Lemma sort_indices_elem_of e l : e ∈ sort_indices l ↔ e ∈ l.
Proof.
  induction l as [|x l IH]; simpl; [done|].
  rewrite insert_index_elem_of, IH, elem_of_cons. tauto.
Qed.

Lemma elem_of_List_filter {A : Type} (f : A → bool) (x : A) (l : list A) :
  x ∈ List.filter f l ↔ x ∈ l ∧ f x = true.
Proof. rewrite !list_elem_of_In. apply filter_In. Qed.

Lemma own_property_keys_elem_of key keys :
  key ∈ own_property_keys keys ↔ key ∈ keys.
Proof.
  unfold own_property_keys.
  rewrite elem_of_app, list_elem_of_fmap, elem_of_List_filter.
  unfold is_array_index. split.
  - intros [((n & k) & -> & Hin)|[? _]]; [|done].
    rewrite sort_indices_elem_of in Hin. unfold index_keys in Hin.
    apply list_elem_of_omap in Hin as (k' & Hk' & Heq).
    destruct (array_index k'); simplify_eq. done.
  - intros Hin. destruct (array_index key) as [n|] eqn:Hidx; [left|by right].
    exists (n, key). split; [done|]. rewrite sort_indices_elem_of.
    unfold index_keys. apply list_elem_of_omap. exists key. by rewrite Hidx.
Qed.

(** Without array indices among them, the keys are enumerated in creation
    order. *)
Lemma own_property_keys_no_index keys :
  (∀ k, k ∈ keys → is_array_index k = false) → own_property_keys keys = keys.
Proof.
  intros Hno. unfold own_property_keys.
  assert (index_keys keys = []) as ->.
  { unfold index_keys. induction keys as [|k keys IH]; [done|]. simpl.
    assert (is_array_index k = false) as Hk by (apply Hno; left).
    unfold is_array_index in Hk. destruct (array_index k); [done|].
    apply IH. intros k' Hk'. apply Hno. by right. }
  simpl. induction keys as [|k keys IH]; [done|]. simpl.
  rewrite (Hno k) by left. simpl. f_equal. apply IH.
  intros k' Hk'. apply Hno. by right.
Qed.

End JSFacts.

(** ** The chatroom *)
Module MediatorProofs.
Import JS JSFacts Mediator Scenarios.Chat.
Local Open Scope method_scope.

Lemma for_each_app {A : Type} (body : A → M) (l1 l2 : list A) (w : world) :
  for_each body (l1 ++ l2) w = (for_each body l1 ;; for_each body l2) w.
Proof.
  revert w. induction l1 as [|x l1 IH]; intros w.
  - reflexivity.
  - cbn [app for_each]. unfold and_then.
    destruct (body x w) as [[|e] w']; [|done].
    by rewrite IH.
Qed.

Lemma log_deliveries_nil w : log_deliveries [] w = w.
Proof. destruct w. unfold log_deliveries. simpl. by rewrite !app_nil_r. Qed.

Lemma log_deliveries_app ds1 ds2 w :
  log_deliveries ds2 (log_deliveries ds1 w) = log_deliveries (ds1 ++ ds2) w.
Proof.
  unfold log_deliveries. simpl. by rewrite fmap_app, !app_assoc.
Qed.

Lemma new_calls_log_deliveries (m : M) k ds w :
  m w = (k, log_deliveries ds w) → new_calls w m = ds.
Proof.
  intros H. unfold new_calls. rewrite H. simpl. by rewrite drop_app_length.
Qed.

(** The loop over own keys delivers to every participant it meets other
    than the object [from], and ends normally. *)
Lemma broadcast_own_keys c message from keys w :
  (∀ k, k ∈ keys → is_Some (get k (own (participants w c)))) →
  for_each (broadcast_step c message from) keys w
  = (Normal,
     log_deliveries
       (deliveries message from
          (filter (λ p, p ≠ from) (omap (λ k, get k (own (participants w c))) keys)))
       w).
Proof.
  revert w. induction keys as [|k keys IH]; intros w Hown.
  - simpl. unfold ret. by rewrite log_deliveries_nil.
  - destruct (Hown k) as [p Hp]; [left|].
    assert (∀ k', k' ∈ keys → is_Some (get k' (own (participants w c)))) as Hrest
      by (intros k' Hk'; apply Hown; by right).
    cbn [for_each omap list_omap]. unfold and_then, broadcast_step at 1.
    rewrite Hp. case_bool_decide as Hfrom.
    + rewrite filter_cons_True by done.
      change (receive p message from w)
        with (Normal, log_deliveries [(p, message, from)] w).
      cbn iota. rewrite (IH (log_deliveries [(p, message, from)] w)) by done.
      by rewrite log_deliveries_app.
    + rewrite filter_cons_False by (intros ?; done).
      by rewrite IH.
Qed.

Lemma inherited_keys_not_own r k : k ∈ inherited_keys r → k ∉ (own r).*1.
Proof.
  unfold inherited_keys. destruct (proto r); [|by intros ?%elem_of_nil].
  intros [_ H]%elem_of_List_filter. by apply bool_decide_eq_true in H.
Qed.

Lemma inherited_keys_no_proto r : proto r = None → inherited_keys r = [].
Proof. unfold inherited_keys. by intros ->. Qed.

(** What a broadcast does, in full. *)
Lemma broadcast_spec c message from w :
  broadcast c message from w
  = (match inherited_keys (participants w c) with
     | [] => Normal
     | _ :: _ => Thrown TypeError
     end,
     log_deliveries
       (deliveries message from
          (filter (λ p, p ≠ from) (entries_in_order (participants w c))))
       w).
Proof.
  unfold broadcast, for_in_keys. rewrite for_each_app. unfold and_then.
  rewrite broadcast_own_keys.
  2:{ intros k Hk. rewrite own_property_keys_elem_of in Hk. by apply get_is_Some. }
  fold (entries_in_order (participants w c)).
  pose proof (inherited_keys_not_own (participants w c)) as Hinh.
  destruct (inherited_keys (participants w c)) as [|k ks]; [done|].
  cbn [for_each]. unfold and_then, broadcast_step.
  change (participants (log_deliveries _ w) c) with (participants w c).
  rewrite get_None; [done|]. apply Hinh. left.
Qed.

Lemma entry_in_order r p : entry r p → p ∈ entries_in_order r.
Proof.
  intros [k Hk]. unfold entries_in_order. apply list_elem_of_omap.
  exists k. split; [|done].
  rewrite own_property_keys_elem_of. by eapply get_Some_key.
Qed.

Lemma in_order_entry r p : p ∈ entries_in_order r → entry r p.
Proof.
  unfold entries_in_order. intros (k & _ & Hk)%list_elem_of_omap. by exists k.
Qed.

(** *** [register] *)

Lemma participants_register_eq c p w :
  participants (register c p w).2 c
  = if bool_decide (name p = "__proto__")
    then Registry (own (participants w c)) (Some p)
    else Registry (set (name p) p (own (participants w c))) (proto (participants w c)).
Proof. unfold participants at 1, register. simpl. by rewrite lookup_insert_eq. Qed.

Lemma participants_register_ne c c' p w :
  c ≠ c' → participants (register c p w).2 c' = participants w c'.
Proof.
  intros Hne. unfold participants, register. simpl. by rewrite lookup_insert_ne.
Qed.

Lemma empty_registry_ok : registry_ok empty_registry.
Proof.
  split; simpl.
  - constructor.
  - constructor.
  - by intros ?%elem_of_nil.
Qed.

(** [register] keeps the registry of its chatroom well formed. *)
Lemma register_ok c p w :
  registry_ok (participants w c) → registry_ok (participants (register c p w).2 c).
Proof.
  intros [Hnd Hnamed Hproto]. rewrite participants_register_eq.
  case_bool_decide as Hp; [by split|]. split; simpl.
  - destruct (decide (name p ∈ (own (participants w c)).*1)) as [Hin|Hout].
    + by rewrite set_keys_present.
    + rewrite set_fresh, fmap_app by done. simpl.
      apply NoDup_app. split_and!; [done| |apply NoDup_singleton].
      intros k Hk ->%list_elem_of_singleton. done.
  - apply Forall_forall. intros [k q] [[= -> ->]|Hin]%set_elem_of; [done|].
    by apply (proj1 (Forall_forall _ _) Hnamed (k, q)).
  - rewrite set_keys_elem_of. intros [?|?]; [congruence|done].
Qed.

Lemma session_ok reqs : ∀ w,
  (∀ c, registry_ok (participants w c)) →
  ∀ c, registry_ok (participants (session reqs w) c).
Proof.
  induction reqs as [|[c0 r] reqs IH]; intros w Hok; [done|].
  change (session ((c0, r) :: reqs) w) with (session reqs (perform c0 r w).2).
  apply IH. intros c. destruct r as [p|message from to|identity]; cbn [perform].
  - destruct (decide (c0 = c)) as [->|Hne].
    + by apply register_ok.
    + by rewrite participants_register_ne.
  - destruct to as [| |p]; cbn [send]; [rewrite broadcast_spec..|]; apply Hok.
  - apply Hok.
Qed.

(** Every registry that requests build from the initial world is well
    formed. *)
Corollary reachable_ok reqs c : registry_ok (participants (session reqs initial_world) c).
Proof. apply session_ok. intros c'. apply empty_registry_ok. Qed.

(** *** Broadcast *)

(** C1, as the code has it: a broadcast calls [receive(message, from)] on
    every registry entry, in enumeration order, except the entry that is the
    object [from] itself (the comparison is by reference, not by name); every
    call goes to an entry, and none goes to the object [from]. *)
Theorem C1_broadcast_skips_the_sender_object (w : world) (c : nat)
    (message : string) (from : Participant) :
  new_calls w (send c message from Absent)
  = deliveries message from
      (filter (λ p, p ≠ from) (entries_in_order (participants w c)))
  ∧ (∀ p, entry (participants w c) p → p ≠ from →
          (p, message, from) ∈ new_calls w (send c message from Absent))
  ∧ (∀ d, d ∈ new_calls w (send c message from Absent) →
          d.1.1 ≠ from ∧ entry (participants w c) d.1.1).
Proof.
  assert (new_calls w (send c message from Absent)
          = deliveries message from
              (filter (λ p, p ≠ from) (entries_in_order (participants w c)))) as Heq.
  { eapply new_calls_log_deliveries. apply broadcast_spec. }
  rewrite Heq. split_and!; [done|..].
  - intros p Hp Hne. apply list_elem_of_fmap. exists p. split; [done|].
    apply list_elem_of_filter. split; [done|]. by apply entry_in_order.
  - intros d (p & -> & [Hne Hin]%list_elem_of_filter)%list_elem_of_fmap.
    split; [done|]. by apply in_order_entry.
Qed.

Lemma C1_witness :
  (second_x, "hi", first_x) ∈ new_calls overwritten (send 0 "hi" first_x Absent).
Proof.
  apply (proj1 (proj2 (C1_broadcast_skips_the_sender_object overwritten 0 "hi" first_x))).
  - exists "X". vm_compute. reflexivity.
  - vm_compute. discriminate.
Defined.

(** C1 as stated fails: after [first_x] was overwritten by [second_x] under
    the same name, a broadcast from [first_x] calls [second_x.receive]. *)
Lemma C1_counterexample : ¬ excludes_sender_by_name overwritten 0 "hi" first_x.
Proof.
  intros H. apply (H (second_x, "hi", first_x)); [|done].
  vm_compute. left.
Qed.

(** Registering participants with new, distinct names, none of them
    ["__proto__"], creates their properties one after the other. *)
Lemma register_all c ps : ∀ w,
  NoDup (name <$> ps) →
  (∀ p, p ∈ ps → name p ≠ "__proto__" ∧ name p ∉ (own (participants w c)).*1) →
  let registered := for_each (register c) ps w in
  registered.1 = Normal
  ∧ participants registered.2 c
    = Registry (own (participants w c) ++ ((λ p, (name p, p)) <$> ps))
               (proto (participants w c))
  ∧ console registered.2 = console w
  ∧ calls registered.2 = calls w.
Proof.
  induction ps as [|p ps IH]; intros w Hnd Hnew.
  - simpl. rewrite app_nil_r. by destruct (participants w c).
  - apply NoDup_cons in Hnd as [Hp Hnd]. destruct (Hnew p) as [Hproto Hfresh]; [left|].
    cbn [for_each]. unfold and_then.
    change (register c p w) with (Normal, (register c p w).2). cbn iota.
    pose proof (participants_register_eq c p w) as Hreg.
    rewrite bool_decide_false in Hreg by done. rewrite set_fresh in Hreg by done.
    destruct (IH (register c p w).2 Hnd) as (Hk & Hr & Hcon & Hcalls).
    { intros q Hq. destruct (Hnew q) as [? Hq']; [by right|]. split; [done|].
      rewrite Hreg. simpl. rewrite fmap_app. simpl.
      rewrite elem_of_app, list_elem_of_singleton. intros [?|Heq]; [done|].
      apply Hp. rewrite <-Heq. apply list_elem_of_fmap. by exists q. }
    split_and!; [done| |done..].
    rewrite Hr, Hreg. simpl. by rewrite <-app_assoc.
Qed.

Lemma omap_get_names (o : list (string * Participant)) (ps : list Participant) :
  (∀ p, p ∈ ps → get (name p) o = Some p) →
  omap (λ k, get k o) (name <$> ps) = ps.
Proof.
  induction ps as [|p ps IH]; intros Hget; [done|].
  csimpl. rewrite (Hget p) by left. f_equal. apply IH.
  intros q Hq. apply Hget. by right.
Qed.

(** C3, as the code has it: when the names are pairwise distinct and none
    is an array index or ["__proto__"], registering [ps] in a new chatroom
    and broadcasting from [A] calls [receive] on the participants of [ps]
    other than [A], once each and in registration order, and ends
    normally. *)
Theorem C3_broadcast_follows_registration_order (w : world) (c : nat)
    (ps : list Participant) (A : Participant) (message : string) :
  participants w c = empty_registry →
  NoDup (name <$> ps) →
  (∀ p, p ∈ ps → is_array_index (name p) = false ∧ name p ≠ "__proto__") →
  let registered := for_each (register c) ps w in
  registered.1 = Normal
  ∧ send c message A Absent registered.2
    = (Normal,
       log_deliveries (deliveries message A (filter (λ p, p ≠ A) ps)) registered.2)
  ∧ NoDup (filter (λ p, p ≠ A) ps)
  ∧ delivers_in_registration_order w c ps A message.
Proof.
  intros Hempty Hnd Hnames registered.
  destruct (register_all c ps w Hnd) as (Hk & Hr & _ & _).
  { intros p Hp. destruct (Hnames p Hp). rewrite Hempty. split; [done|].
    by intros ?%elem_of_nil. }
  fold registered in Hk, Hr. rewrite Hempty in Hr. simpl in Hr.
  assert (entries_in_order (participants registered.2 c) = ps) as Hentries.
  { unfold entries_in_order. rewrite Hr. simpl.
    rewrite <-list_fmap_compose.
    change (fst ∘ (λ p : Participant, (name p, p))) with name.
    rewrite own_property_keys_no_index.
    2:{ intros k (p & -> & Hp)%list_elem_of_fmap. by apply Hnames. }
    apply omap_get_names. intros p Hp. apply get_elem_of_NoDup.
    - rewrite <-list_fmap_compose. done.
    - apply list_elem_of_fmap. by exists p. }
  assert (send c message A Absent registered.2
          = (Normal,
             log_deliveries (deliveries message A (filter (λ p, p ≠ A) ps))
                            registered.2)) as Hsend.
  { cbn [send]. rewrite broadcast_spec, Hentries.
    rewrite inherited_keys_no_proto; [done|]. by rewrite Hr. }
  split_and!; [done|done| |].
  - apply NoDup_filter. by eapply NoDup_fmap_1.
  - unfold delivers_in_registration_order. fold registered.
    by eapply new_calls_log_deliveries.
Qed.

Lemma C3_witness :
  delivers_in_registration_order initial_world 0 [yoko; john; paul; ringo] yoko "hi".
Proof.
  apply (C3_broadcast_follows_registration_order
           initial_world 0 [yoko; john; paul; ringo] yoko "hi").
  - reflexivity.
  - apply (bool_decide_unpack _). vm_compute. exact I.
  - apply Forall_forall. apply (bool_decide_unpack _). vm_compute. exact I.
Defined.

(** C3 as stated fails: in a new chatroom register ["a"], ["2"], ["1"] in
    that order; a broadcast from ["a"] calls ["1"] before ["2"]. *)
Lemma C3_counterexample :
  ¬ delivers_in_registration_order initial_world 0 [alpha; two; one] alpha "hi".
Proof. vm_compute. discriminate. Qed.

(** *** Addressed delivery *)

(** C4: [send(msg, A, B)] with a participant [B] calls [B.receive(msg, A)]
    once and nothing else; it reads no registry, so the chatroom it is sent
    through and the registries of the world make no difference. *)
Theorem C4_unicast_by_reference (w : world) (c : nat) (message : string)
    (A B : Participant) :
  send c message A (Target B) w = (Normal, log_deliveries [(B, message, A)] w)
  ∧ new_calls w (send c message A (Target B)) = [(B, message, A)]
  ∧ rooms (send c message A (Target B) w).2 = rooms w
  ∧ (∀ c' registries,
       let w' := World (chatroom_of w) registries (console w) (calls w) in
       (send c' message A (Target B) w').1 = (send c message A (Target B) w).1
       ∧ console (send c' message A (Target B) w').2
         = console (send c message A (Target B) w).2
       ∧ calls (send c' message A (Target B) w').2
         = calls (send c message A (Target B) w).2).
Proof.
  split_and!; [done| |done|done].
  by eapply new_calls_log_deliveries.
Qed.

(** *** Registration *)

(** C5: registering [p2] under a name that holds [p1] replaces the entry
    where it stands: same keys at the same places, same iteration order,
    same size, the name now leads to [p2], [p1] is no longer an entry, and
    [register] ends normally. *)
Theorem C5_register_overwrites_in_place (w : world) (c : nat) (p1 p2 : Participant) :
  registry_ok (participants w c) →
  get (name p2) (own (participants w c)) = Some p1 →
  let r := participants w c in
  let r' := participants (register c p2 w).2 c in
  (register c p2 w).1 = Normal
  ∧ name p1 = name p2
  ∧ (∃ i, own r !! i = Some (name p2, p1) ∧ own r' = <[i := (name p2, p2)]> (own r))
  ∧ (own r').*1 = (own r).*1
  ∧ for_in_keys r' = for_in_keys r
  ∧ length (own r') = length (own r)
  ∧ get (name p2) (own r') = Some p2
  ∧ (p1 ≠ p2 → ¬ entry r' p1)
  ∧ registry_ok r'.
Proof.
  intros Hok Hget r r'.
  pose proof (get_Some_key _ _ _ Hget) as Hkey.
  assert (name p2 ≠ "__proto__") as Hproto.
  { intros Heq. apply (ok_no_proto_key _ Hok). by rewrite <-Heq. }
  assert (name p1 = name p2) as Hname.
  { apply get_Some_elem_of in Hget.
    by pose proof (proj1 (Forall_forall _ _) (ok_named _ Hok) _ Hget). }
  assert (r' = Registry (set (name p2) p2 (own r)) (proto r)) as Hr'.
  { unfold r'. rewrite participants_register_eq. by rewrite bool_decide_false. }
  assert ((own r').*1 = (own r).*1) as Hkeys.
  { rewrite Hr'. simpl. by apply set_keys_present. }
  split_and!; [done|done| |done| | | | |].
  - rewrite Hr'. simpl. by apply set_present.
  - unfold for_in_keys, inherited_keys. rewrite Hkeys. by rewrite Hr'.
  - rewrite Hr'. simpl. by apply set_length_present.
  - rewrite Hr'. simpl. apply get_set_eq.
  - intros Hne [k Hk]. rewrite Hr' in Hk. simpl in Hk.
    destruct (decide (name p2 = k)) as [<-|Hk'].
    + rewrite get_set_eq in Hk. congruence.
    + rewrite get_set_ne in Hk by done. apply get_Some_elem_of in Hk.
      apply Hk'. rewrite <-Hname.
      symmetry. apply (proj1 (Forall_forall _ _) (ok_named _ Hok) _ Hk).
  - by apply register_ok.
Qed.

Lemma C5_witness :
  get "X" (own (participants overwritten 0)) = Some second_x
  ∧ length (own (participants overwritten 0)) = 1.
Proof.
  pose proof (C5_register_overwrites_in_place
                (register 0 first_x initial_world).2 0 first_x second_x) as H.
  destruct H as (_ & _ & _ & _ & _ & Hlen & Hget & _).
  - split.
    + apply (bool_decide_unpack _). vm_compute. exact I.
    + apply (bool_decide_unpack _). vm_compute. exact I.
    + apply (bool_decide_unpack _). vm_compute. exact I.
  - vm_compute. reflexivity.
  - split; [exact Hget | exact Hlen].
Defined.

(** [register] and [send] never delete an own key of a registry. *)
Lemma session_keeps_keys reqs : ∀ w c key,
  key ∈ (own (participants w c)).*1 →
  key ∈ (own (participants (session reqs w) c)).*1.
Proof.
  induction reqs as [|[c0 r] reqs IH]; intros w c key Hkey; [done|].
  change (session ((c0, r) :: reqs) w) with (session reqs (perform c0 r w).2).
  apply IH. destruct r as [p|message from to|identity]; cbn [perform].
  - destruct (decide (c0 = c)) as [->|Hne].
    + rewrite participants_register_eq. case_bool_decide; simpl; [done|].
      rewrite set_keys_elem_of. by right.
    + by rewrite participants_register_ne.
  - destruct to as [| |p]; cbn [send]; [rewrite broadcast_spec..|]; apply Hkey.
  - apply Hkey.
Qed.

(** The participant under an own key stays there, or gives way to a
    participant that a later [register] of the same chatroom stored under
    that key. *)
Lemma session_entry reqs : ∀ w c key q0,
  get key (own (participants w c)) = Some q0 →
  ∃ q, get key (own (participants (session reqs w) c)) = Some q
       ∧ (q = q0 ∨ ((c, Register q) ∈ reqs ∧ name q = key)).
Proof.
  induction reqs as [|[c0 r] reqs IH]; intros w c key q0 Hget.
  { exists q0. split; [done|by left]. }
  change (session ((c0, r) :: reqs) w) with (session reqs (perform c0 r w).2).
  assert (∃ q1, get key (own (participants (perform c0 r w).2 c)) = Some q1
                ∧ (q1 = q0 ∨ ((c0, r) = (c, Register q1) ∧ name q1 = key)))
    as (q1 & Hq1 & Hfrom).
  { destruct r as [q'|message from to|identity]; cbn [perform].
    - destruct (decide (c0 = c)) as [->|Hne].
      + rewrite participants_register_eq. case_bool_decide; cbn [own].
        { exists q0. split; [done|by left]. }
        destruct (decide (name q' = key)) as [<-|Hkey].
        * exists q'. rewrite get_set_eq. split; [done|by right].
        * exists q0. rewrite get_set_ne by done. split; [done|by left].
      + exists q0. rewrite participants_register_ne by done. split; [done|by left].
    - exists q0. split; [|by left].
      destruct to as [| |q']; cbn [send]; [rewrite broadcast_spec..|]; apply Hget.
    - exists q0. split; [done|by left]. }
  destruct (IH _ c key q1 Hq1) as (q & Hq & Hlast).
  exists q. split; [done|].
  destruct Hlast as [->|[Hin Hname]].
  - destruct Hfrom as [?|[-> ?]]; [by left|]. right. split; [left|done].
  - right. split; [by right|done].
Qed.

(** C6, as the code has it: the chatroom object has the methods [register]
    and [send] only; calling [unregister] throws a [TypeError] and changes
    nothing.  After [register(p)] the name of [p] stays a key of the registry
    whatever requests follow, and the entry under it is [p] itself or a
    participant of the same name that a later [register] of this chatroom
    was given: without such a [register] it is still [p]. *)
Theorem C6_entries_are_never_removed (w : world) (c : nat) (p : Participant)
    (reqs : list (nat * request)) :
  name p ≠ "__proto__" →
  let after := participants (session reqs (register c p w).2) c in
  (∀ identity, method_name (Unregister identity) ∉ chatroom_interface)
  ∧ (∀ identity w', perform c (Unregister identity) w' = (Thrown TypeError, w'))
  ∧ name p ∈ (own after).*1
  ∧ (∃ q, get (name p) (own after) = Some q
          ∧ (q = p ∨ ((c, Register q) ∈ reqs ∧ name q = name p)))
  ∧ (Forall (λ cr : nat * request,
               ∀ q, cr = (c, Register q) → name q ≠ name p) reqs →
     get (name p) (own after) = Some p).
Proof.
  intros Hproto after.
  assert (get (name p) (own (participants (register c p w).2 c)) = Some p) as Hp.
  { rewrite participants_register_eq, bool_decide_false by done. apply get_set_eq. }
  destruct (session_entry reqs _ c (name p) p Hp) as (q & Hq & Hlast).
  fold after in Hq. split_and!.
  - intros identity. unfold chatroom_interface. simpl.
    rewrite !elem_of_cons, elem_of_nil. intros [?|[?|[]]]; discriminate.
  - done.
  - by eapply get_Some_key.
  - by exists q.
  - intros Hreqs. destruct Hlast as [->|[Hin Hname]]; [done|].
    destruct (proj1 (Forall_forall _ _) Hreqs _ Hin q); done.
Qed.

Lemma C6_witness :
  get "Yoko"
      (own (participants
              (session [(0, Unregister "Yoko"); (0, Register john); (1, Register first_x)]
                       (register 0 yoko initial_world).2) 0))
  = Some yoko.
Proof.
  apply (C6_entries_are_never_removed initial_world 0 yoko
           [(0, Unregister "Yoko"); (0, Register john); (1, Register first_x)]).
  - vm_compute. discriminate.
  - apply Forall_forall. intros cr Hcr q ->.
    repeat (apply elem_of_cons in Hcr as [Hcr|Hcr]); try discriminate.
    + injection Hcr as ->. vm_compute. discriminate.
    + by apply elem_of_nil in Hcr.
Defined.

(** C6 as stated fails: [unregister] after [register] ends in a
    [TypeError], not normally. *)
Lemma C6_counterexample : ¬ unregister_removes initial_world 0 yoko.
Proof. intros [H _]. vm_compute in H. discriminate. Qed.

(** C7, as the code has it: a null target is falsy, so [send] with [null]
    as the target is the broadcast of [send] without a target; with no
    prototype set on the registry it ends normally. *)
Theorem C7_null_target_broadcasts (w : world) (c : nat) (message : string)
    (from : Participant) :
  send c message from Null w = send c message from Absent w
  ∧ new_calls w (send c message from Null)
    = deliveries message from
        (filter (λ p, p ≠ from) (entries_in_order (participants w c)))
  ∧ (proto (participants w c) = None → (send c message from Null w).1 = Normal).
Proof.
  split_and!; [done| |].
  - eapply new_calls_log_deliveries. apply broadcast_spec.
  - intros Hproto. cbn [send]. rewrite broadcast_spec.
    by rewrite inherited_keys_no_proto.
Qed.

Lemma C7_witness : (send 0 "hi" yoko Null duo).1 = Normal.
Proof.
  apply (proj2 (proj2 (C7_null_target_broadcasts duo 0 "hi" yoko))).
  vm_compute. reflexivity.
Defined.

(** C7 as stated fails: with Yoko and John registered, [send("hi", yoko,
    null)] throws nothing and calls [john.receive]. *)
Lemma C7_counterexample : ¬ null_target_is_rejected duo 0 "hi" yoko.
Proof. intros [_ H]. vm_compute in H. discriminate. Qed.

(** C10: [register(p)] sets [p.chatroom] to the chatroom and leaves the
    field of every other participant, the other chatrooms, the entries under
    other names, the console and the calls made so far as they were (a name
    cannot change at all); afterwards [p.send(msg, to)] is
    [chatroom.send(msg, p, to)]. *)
Theorem C10_register_links_the_participant (w : world) (c : nat) (p : Participant) :
  let w' := (register c p w).2 in
  (register c p w).1 = Normal
  ∧ chatroom_of w' !! p = Some c
  ∧ (∀ q, q ≠ p → chatroom_of w' !! q = chatroom_of w !! q)
  ∧ (∀ c', c' ≠ c → participants w' c' = participants w c')
  ∧ (∀ k, k ≠ name p →
          get k (own (participants w' c)) = get k (own (participants w c)))
  ∧ console w' = console w
  ∧ calls w' = calls w
  ∧ (∀ message to, Participant_send p message to w' = send c message p to w').
Proof.
  intros w'. split_and!; [done| | | | |done|done|].
  - unfold w', register. simpl. apply lookup_insert_eq.
  - intros q Hq. unfold w', register. simpl. by apply lookup_insert_ne.
  - intros c' Hc'. by apply participants_register_ne.
  - intros k Hk. unfold w'. rewrite participants_register_eq.
    case_bool_decide; simpl; [done|]. by apply get_set_ne.
  - intros message to. unfold Participant_send.
    assert (chatroom_of w' !! p = Some c) as ->; [|done].
    unfold w', register. simpl. apply lookup_insert_eq.
Qed.

Lemma C10_witness :
  chatroom_of (register 0 yoko initial_world).2 !! john = None.
Proof.
  rewrite (proj1 (proj2 (proj2
             (C10_register_links_the_participant initial_world 0 yoko))) john).
  - reflexivity.
  - vm_compute. discriminate.
Defined.

(** *** The demonstration *)

Example chatroom_run_console :
  run.1 = Normal
  ∧ console run.2
    = ["Yoko to John: All you need is love.";
       "Yoko to Paul: All you need is love.";
       "Yoko to Ringo: All you need is love.";
       "Yoko to John: I love you John.";
       "Yoko to Paul: I love you John.";
       "Yoko to Ringo: I love you John.";
       "John to Yoko: Hey, no need to broadcast";
       "Paul to Yoko: Ha, I heard that!";
       "Paul to John: Ha, I heard that!";
       "Paul to Ringo: Ha, I heard that!";
       "Ringo to Paul: Paul, what do you think?"].
Proof. vm_compute. done. Qed.

(** A participant named ["__proto__"] becomes the prototype of the
    registry: it gets no broadcast, and the loop ends in a [TypeError] on
    the inherited key [name]. *)
Example proto_name_breaks_broadcast :
  let w := (register 0 (new_Participant "__proto__" 1)
              (register 0 yoko initial_world).2).2 in
  send 0 "hi" john Absent w
  = (Thrown TypeError, log_deliveries [(yoko, "hi", john)] w).
Proof. vm_compute. done. Qed.

End MediatorProofs.

(** ** The click list *)
Module ObserverProofs.
Import JS JSFacts Observer Scenarios.Clicks.
Local Open Scope observer_scope.

(** *** [unsubscribe] *)

Lemma this_handlers_unsubscribe fn w :
  this_handlers (unsubscribe fn w).2
  = array_filter (unsubscribe_callback fn) (this_handlers w).
Proof. unfold this_handlers at 1, unsubscribe. simpl. by rewrite lookup_total_insert_eq. Qed.

Lemma this_handlers_subscribe fn w :
  this_handlers (subscribe fn w).2 = this_handlers w ++ [fn].
Proof. unfold this_handlers at 1, subscribe. simpl. by rewrite lookup_total_insert_eq. Qed.

(** The callback never keeps the function it is to remove. *)
Lemma unsubscribe_callback_self fn : truthy (unsubscribe_callback fn fn) = false.
Proof.
  unfold unsubscribe_callback.
  destruct fn; simpl; try done; rewrite bool_decide_true by done; done.
Qed.

Lemma array_filter_idempotent callback l :
  array_filter callback (array_filter callback l) = array_filter callback l.
Proof.
  unfold array_filter. induction l as [|x l IH]; [done|]. simpl.
  destruct (truthy (callback x)) eqn:Hx; [|done]. simpl. by rewrite Hx, IH.
Qed.

(** C9: [unsubscribe(h)] leaves no entry equal to [h], however often [h]
    was subscribed, and a second [unsubscribe(h)] leaves the list as the
    first one made it. *)
Theorem C9_unsubscribe_removes_every_copy (w : world) (h : value) (n : nat) :
  (h ∉ this_handlers (unsubscribe h w).2)
  ∧ (h ∉ this_handlers (unsubscribe h (Nat.iter n (λ w, (subscribe h w).2) w)).2)
  ∧ this_handlers (unsubscribe h (unsubscribe h w).2).2
    = this_handlers (unsubscribe h w).2.
Proof.
  assert (∀ w', h ∉ this_handlers (unsubscribe h w').2) as Hgone.
  { intros w'. rewrite this_handlers_unsubscribe. unfold array_filter.
    rewrite elem_of_List_filter. intros [_ Hkeep].
    by rewrite unsubscribe_callback_self in Hkeep. }
  split_and!; [done..|].
  rewrite !this_handlers_unsubscribe. apply array_filter_idempotent.
Qed.

(** *** [fire] *)

(** While handlers run, an array of the store only ever grows at its end:
    [subscribe] pushes, and [unsubscribe] fills a new array. *)
Lemma subscribe_keeps_prefix a l0 fn w :
  l0 `prefix_of` (arrays w !!! a) →
  l0 `prefix_of` (arrays (subscribe fn w).2 !!! a).
Proof.
  intros Hpre. unfold subscribe. simpl.
  destruct (decide (handlers w = a)) as [<-|Hne].
  - rewrite lookup_total_insert_eq. by apply prefix_app_r.
  - by rewrite lookup_total_insert_ne.
Qed.

Lemma unsubscribe_keeps_prefix a l0 fn w :
  l0 `prefix_of` (arrays w !!! a) →
  l0 `prefix_of` (arrays (unsubscribe fn w).2 !!! a).
Proof.
  intros Hpre. unfold unsubscribe. simpl.
  destruct (decide (new_array w = a)) as [<-|Hne].
  - assert (new_array w ∉ dom (arrays w)) as Hfresh.
    { unfold new_array.
      pose proof (is_fresh ({[handlers w]} ∪ dom (arrays w))). set_solver. }
    apply not_elem_of_dom in Hfresh.
    rewrite lookup_total_alt, Hfresh in Hpre. simpl in Hpre.
    apply prefix_nil_inv in Hpre as ->. apply prefix_nil.
  - by rewrite lookup_total_insert_ne.
Qed.

Lemma perform_keeps_prefix a l0 act w :
  l0 `prefix_of` (arrays w !!! a) →
  l0 `prefix_of` (arrays (perform act w).2 !!! a).
Proof.
  destruct act; cbn [perform]; intros Hpre;
    [by apply subscribe_keeps_prefix | by apply unsubscribe_keeps_prefix | done..].
Qed.

Lemma body_keeps_prefix a l0 acts : ∀ w,
  l0 `prefix_of` (arrays w !!! a) →
  l0 `prefix_of` (arrays (for_each perform acts w).2 !!! a).
Proof.
  induction acts as [|act acts IH]; intros w Hpre; [done|].
  cbn [for_each]. unfold and_then.
  pose proof (perform_keeps_prefix a l0 act w Hpre) as Hact.
  destruct (perform act w) as [[|e] w']; [by apply IH | done].
Qed.

Section Fire.
Variable code : nat → value → list action.

Lemma call_keeps_prefix a l0 item sc o w :
  l0 `prefix_of` (arrays w !!! a) →
  l0 `prefix_of` (arrays (call code item sc o w).2 !!! a).
Proof.
  intros Hpre. destruct item; try done. cbn [call]. by apply body_keeps_prefix.
Qed.

(** The rounds of [forEach] from the index after [visited] on: they meet
    the rest of the array as it was on entry. *)
Lemma forEach_rounds a sc o l0 rest : ∀ visited w,
  l0 = visited ++ rest →
  l0 `prefix_of` (arrays w !!! a) →
  for_each (forEach_step code a sc o) (seq (length visited) (length rest)) w
  = dispatch code sc o rest w.
Proof.
  induction rest as [|item rest IH]; intros visited w Hl0 Hpre; [done|].
  cbn [length seq for_each dispatch]. unfold and_then, forEach_step at 1.
  assert ((arrays w !!! a) !! length visited = Some item) as ->.
  { eapply prefix_lookup_Some; [|done]. rewrite Hl0.
    by rewrite list_lookup_middle. }
  pose proof (call_keeps_prefix a l0 item sc o w Hpre) as Hcall.
  destruct (call code item sc o w) as [[|e] w']; [|done].
  specialize (IH (visited ++ [item]) w').
  rewrite length_app, Nat.add_1_r in IH. apply IH; [|done].
  by rewrite <-app_assoc.
Qed.

(** A pass of [fire] is a pass over the handlers as they were on entry. *)
Lemma fire_dispatch o thisObj w :
  fire code o thisObj w = dispatch code (scope_of thisObj) o (this_handlers w) w.
Proof.
  unfold fire. apply (forEach_rounds _ _ _ (this_handlers w) _ []); done.
Qed.

Lemma perform_invoked act w : invoked (perform act w).2 = invoked w.
Proof. by destruct act. Qed.

Lemma body_invoked acts : ∀ w, invoked (for_each perform acts w).2 = invoked w.
Proof.
  induction acts as [|act acts IH]; intros w; [done|].
  cbn [for_each]. unfold and_then.
  pose proof (perform_invoked act w) as Hact.
  destruct (perform act w) as [[|e] w']; [|done]. by rewrite IH.
Qed.

Lemma body_without_throw acts : ∀ w,
  Do_throw ∉ acts → (for_each perform acts w).1 = Normal.
Proof.
  induction acts as [|act acts IH]; intros w Hno; [done|].
  apply not_elem_of_cons in Hno as [Hact Hno].
  cbn [for_each]. unfold and_then.
  destruct act; cbn [perform subscribe unsubscribe]; try by apply IH.
  done.
Qed.

Lemma body_with_throw acts : ∀ w,
  Do_throw ∈ acts → (for_each perform acts w).1 = Thrown UserError.
Proof.
  induction acts as [|act acts IH]; intros w Hin; [by apply elem_of_nil in Hin|].
  cbn [for_each]. unfold and_then.
  destruct act; cbn [perform subscribe unsubscribe throw]; try done;
    apply IH; by apply elem_of_cons in Hin as [?|?].
Qed.

(** A pass over a fixed list calls what the pass of the specification
    calls, and ends as it ends. *)
Lemma dispatch_snapshot sc o l : ∀ w,
  (dispatch code sc o l w).1 = (snapshot_pass code sc o l).1
  ∧ invoked (dispatch code sc o l w).2
    = invoked w ++ (snapshot_pass code sc o l).2.
Proof.
  induction l as [|item l IH]; intros w.
  - simpl. by rewrite app_nil_r.
  - cbn [dispatch for_each]. unfold and_then.
    destruct item as [| | | | | |f];
      try (cbn [call throw snapshot_pass]; by rewrite app_nil_r).
    cbn [call snapshot_pass].
    set (w1 := World (arrays w) (handlers w) (console w) (invoked w ++ [(f, sc, o)])).
    pose proof (body_invoked (code f o) w1) as Hinv.
    case_bool_decide as Hthrow.
    + pose proof (body_with_throw (code f o) w1 Hthrow) as Hk.
      destruct (for_each perform (code f o) w1) as [k w2]. simpl in Hk, Hinv.
      subst k. by split.
    + pose proof (body_without_throw (code f o) w1 Hthrow) as Hk.
      destruct (for_each perform (code f o) w1) as [k w2]. simpl in Hk, Hinv.
      subst k. destruct (IH w2) as [Hk' Hinv']. split; [done|].
      unfold dispatch in Hinv'. rewrite Hinv', Hinv. unfold w1. simpl.
      by rewrite <-app_assoc.
Qed.

(** The pass of the specification over functions that do not throw. *)
Lemma snapshot_pass_quiet sc o l :
  Forall (quiet code o) l →
  snapshot_pass code sc o l = (Normal, invocations sc o l).
Proof.
  induction 1 as [|item l (f & -> & Hf) _ IH]; [done|].
  cbn [snapshot_pass]. rewrite bool_decide_false by done. by rewrite IH.
Qed.

(** It ends at the first function that throws. *)
Lemma snapshot_pass_throwing sc o before h after :
  Forall (quiet code o) before →
  Do_throw ∈ code h o →
  snapshot_pass code sc o (before ++ VFunction h :: after)
  = (Thrown UserError, invocations sc o (before ++ [VFunction h])).
Proof.
  intros Hquiet Hthrow.
  induction Hquiet as [|item l (f & -> & Hf) _ IH];
    cbn [app snapshot_pass].
  - by rewrite bool_decide_true.
  - rewrite bool_decide_false by done. by rewrite IH.
Qed.

End Fire.

Lemma invocations_length sc o l :
  Forall (λ item, ∃ f, item = VFunction f) l →
  length (invocations sc o l) = length l.
Proof.
  induction 1 as [|item l (f & ->) _ IH]; [done|]. simpl. by rewrite IH.
Qed.

Lemma quiet_function code o l :
  Forall (quiet code o) l → Forall (λ item, ∃ f, item = VFunction f) l.
Proof.
  intros H. eapply Forall_impl; [exact H|]. intros item (f & -> & _). by exists f.
Qed.

Lemma new_invoked_app (m : M) w l :
  invoked (m w).2 = invoked w ++ l → new_invoked w m = l.
Proof. intros H. unfold new_invoked. rewrite H. by rewrite drop_app_length. Qed.

(** C8: [fire] works on the handlers present on entry.  When these are
    functions that do not throw, each of them is called in the pass, in
    order and once per entry, whatever any of them unsubscribes (or
    subscribes) while it runs: the number of calls is the number of entries
    on entry. *)
Theorem C8_fire_calls_the_handlers_present_on_entry
    (code : nat → value → list action) (w : world) (o thisObj : value) :
  (fire code o thisObj w).1
  = (snapshot_pass code (scope_of thisObj) o (this_handlers w)).1
  ∧ new_invoked w (fire code o thisObj)
    = (snapshot_pass code (scope_of thisObj) o (this_handlers w)).2
  ∧ (Forall (quiet code o) (this_handlers w) →
     (fire code o thisObj w).1 = Normal
     ∧ new_invoked w (fire code o thisObj)
       = invocations (scope_of thisObj) o (this_handlers w)
     ∧ length (new_invoked w (fire code o thisObj)) = length (this_handlers w)).
Proof.
  split_and!.
  - rewrite fire_dispatch. apply dispatch_snapshot.
  - apply new_invoked_app. rewrite fire_dispatch. apply dispatch_snapshot.
  - intros Hquiet.
    destruct (dispatch_snapshot code (scope_of thisObj) o (this_handlers w) w)
      as [Hk Hinv].
    rewrite <-fire_dispatch, snapshot_pass_quiet in Hk, Hinv by done.
    cbn [fst snd] in Hk, Hinv.
    apply new_invoked_app in Hinv.
    split_and!; [done..|]. rewrite Hinv.
    apply invocations_length. by eapply quiet_function.
Qed.

Lemma C8_witness :
  new_invoked two_handlers (fire unsubscribing_code (VString "e") VUndefined)
  = [(0, GlobalObject, VString "e"); (1, GlobalObject, VString "e")]
  ∧ this_handlers (fire unsubscribing_code (VString "e") VUndefined two_handlers).2 = [].
Proof.
  split; [|vm_compute; reflexivity].
  apply (proj2 (proj2 (C8_fire_calls_the_handlers_present_on_entry
                         unsubscribing_code two_handlers (VString "e") VUndefined))).
  change (this_handlers two_handlers) with [VFunction 0; VFunction 1].
  apply Forall_cons; split; [|apply Forall_cons; split; [|constructor]];
    (eexists; split; [reflexivity|]; apply (bool_decide_unpack _); vm_compute; exact I).
Defined.

(** C2, as the code has it: [fire] has no handler for exceptions.  When
    the functions before [h] do not throw and [h] throws, the pass has
    called these functions and [h], the exception of [h] reaches the caller
    of [fire], and no entry after [h] is visited. *)
Theorem C2_a_throwing_handler_ends_the_pass
    (code : nat → value → list action) (w : world) (o thisObj : value)
    (before after : list value) (h : nat) :
  this_handlers w = before ++ VFunction h :: after →
  Forall (quiet code o) before →
  Do_throw ∈ code h o →
  (fire code o thisObj w).1 = Thrown UserError
  ∧ new_invoked w (fire code o thisObj)
    = invocations (scope_of thisObj) o (before ++ [VFunction h])
  ∧ length (new_invoked w (fire code o thisObj)) = S (length before).
Proof.
  intros Hw Hquiet Hthrow.
  destruct (dispatch_snapshot code (scope_of thisObj) o (this_handlers w) w)
    as [Hk Hinv].
  rewrite <-fire_dispatch in Hk, Hinv.
  rewrite Hw, snapshot_pass_throwing in Hk, Hinv by done.
  cbn [fst snd] in Hk, Hinv.
  apply new_invoked_app in Hinv.
  split_and!; [done..|]. rewrite Hinv.
  rewrite invocations_length.
  - rewrite length_app. simpl. lia.
  - apply Forall_app. split; [by eapply quiet_function|].
    apply Forall_singleton. by exists h.
Qed.

Lemma C2_witness :
  (fire faulty_code (VString "e") VUndefined two_handlers).1 = Thrown UserError
  ∧ new_invoked two_handlers (fire faulty_code (VString "e") VUndefined)
    = [(0, GlobalObject, VString "e")].
Proof.
  destruct (C2_a_throwing_handler_ends_the_pass
              faulty_code two_handlers (VString "e") VUndefined
              [] [VFunction 1] 0) as (Hk & Hinv & _).
  - vm_compute. reflexivity.
  - constructor.
  - apply (bool_decide_unpack _). vm_compute. exact I.
  - split; [exact Hk | exact Hinv].
Defined.

(** C2 as stated fails: with the throwing function [0] subscribed before
    the function [1], [fire] ends with the exception and has not called
    [1]. *)
Lemma C2_counterexample :
  ¬ isolates_failures faulty_code two_handlers (VString "e") VUndefined.
Proof. intros [H _]. vm_compute in H. discriminate. Qed.

(** *** The demonstration *)

Example click_run_console :
  run.1 = Normal ∧ console run.2 = ["fired: event #1"; "fired: event #3"].
Proof. vm_compute. done. Qed.

End ObserverProofs.

(** ** More about the chatroom *)
Module MediatorExtras.
Import JS JSFacts Mediator MediatorProofs Scenarios.Chat MoreScenarios.Chat.
Local Open Scope method_scope.

Lemma set_set_eq {V : Type} (key : string) (v : V) (o : list (string * V)) :
  set key v (set key v o) = set key v o.
Proof.
  induction o as [|[k v'] o IH]; simpl.
  - by rewrite bool_decide_true.
  - case_bool_decide as Hk; simpl.
    + by rewrite bool_decide_true.
    + rewrite bool_decide_false by done. by rewrite IH.
Qed.

Lemma get_set_Some {V : Type} (key k : string) (v q : V) (o : list (string * V)) :
  get k (set key v o) = Some q → q = v ∨ get k o = Some q.
Proof.
  destruct (decide (key = k)) as [->|Hne].
  - rewrite get_set_eq. intros [= ->]. by left.
  - rewrite get_set_ne by done. by right.
Qed.

(** [send] leaves every registry and every back-link alone. *)
Lemma send_frame c message from to w :
  rooms (send c message from to w).2 = rooms w
  ∧ chatroom_of (send c message from to w).2 = chatroom_of w.
Proof.
  destruct to as [| |p]; cbn [send]; [rewrite broadcast_spec..|]; done.
Qed.

(** X1: Registering the same participant again changes nothing. *)
Theorem register_idempotent (w : world) (c : nat) (p : Participant) :
  register c p (register c p w).2 = register c p w.
Proof.
  unfold register at 1. rewrite participants_register_eq.
  unfold register. cbn [snd chatroom_of rooms console calls].
  rewrite !insert_insert_eq. do 3 f_equal.
  case_bool_decide as Hp; cbn [own proto]; [done|].
  by rewrite set_set_eq.
Qed.

(** X2: Registering [p] in a second chatroom moves the back-link only: the
    first chatroom keeps its entry, so its broadcasts still reach [p],
    while [p.send] goes through the second chatroom. *)
Theorem register_elsewhere_keeps_first_entry (w : world) (c1 c2 : nat)
    (p from : Participant) (message : string) :
  c1 ≠ c2 →
  name p ≠ "__proto__" →
  from ≠ p →
  let w2 := (register c2 p (register c1 p w).2).2 in
  entry (participants w2 c1) p
  ∧ entry (participants w2 c2) p
  ∧ chatroom_of w2 !! p = Some c2
  ∧ (p, message, from) ∈ new_calls w2 (send c1 message from Absent)
  ∧ (∀ to, Participant_send p message to w2 = send c2 message p to w2).
Proof.
  intros Hc Hname Hfrom w2.
  assert (entry (participants w2 c1) p) as H1.
  { unfold w2. rewrite participants_register_ne by done.
    rewrite participants_register_eq, bool_decide_false by done.
    exists (name p). apply get_set_eq. }
  assert (chatroom_of w2 !! p = Some c2) as Hlink.
  { unfold w2, register. simpl. apply lookup_insert_eq. }
  split_and!; [done| |done| |].
  - unfold w2. rewrite participants_register_eq, bool_decide_false by done.
    exists (name p). apply get_set_eq.
  - erewrite new_calls_log_deliveries; [|apply broadcast_spec].
    apply list_elem_of_fmap. exists p. split; [done|].
    apply list_elem_of_filter. split; [done|]. by apply entry_in_order.
  - intros to. unfold Participant_send. by rewrite Hlink.
Qed.

Lemma register_elsewhere_witness :
  (yoko, "hi", john)
  ∈ new_calls (register 1 yoko (register 0 yoko initial_world).2).2
              (send 0 "hi" john Absent).
Proof.
  apply (register_elsewhere_keeps_first_entry initial_world 0 1 yoko john "hi").
  - vm_compute. discriminate.
  - vm_compute. discriminate.
  - vm_compute. discriminate.
Defined.

(** Requests other than [register(p)] leave the back-link of [p] alone. *)
Lemma session_chatroom_of reqs p : ∀ w,
  Forall (λ cr : nat * request, cr.2 ≠ Register p) reqs →
  chatroom_of (session reqs w) !! p = chatroom_of w !! p.
Proof.
  induction reqs as [|[c r] reqs IH]; intros w Hreqs; [done|].
  apply Forall_cons in Hreqs as [Hr Hreqs].
  change (session ((c, r) :: reqs) w) with (session reqs (perform c r w).2).
  rewrite IH by done. destruct r as [q|message from to|identity]; cbn [perform].
  - unfold register. simpl. apply lookup_insert_ne. simpl in Hr. congruence.
  - by rewrite (proj2 (send_frame c message from to w)).
  - done.
Qed.

(** X3: A participant that no request registered cannot send: its [chatroom]
    is still [null], so [p.send] throws a [TypeError] and delivers
    nothing. *)
Theorem unregistered_participant_cannot_send
    (reqs : list (nat * request)) (p : Participant) (message : string) (to : target) :
  Forall (λ cr : nat * request, cr.2 ≠ Register p) reqs →
  Participant_send p message to (session reqs initial_world)
  = (Thrown TypeError, session reqs initial_world).
Proof.
  intros Hreqs. unfold Participant_send.
  by rewrite session_chatroom_of.
Qed.

Lemma unregistered_participant_witness :
  Participant_send john "hi" Absent (session [(0, Register yoko)] initial_world)
  = (Thrown TypeError, session [(0, Register yoko)] initial_world).
Proof.
  apply (unregistered_participant_cannot_send [(0, Register yoko)] john "hi" Absent).
  apply Forall_cons. split; [|constructor]. vm_compute. discriminate.
Defined.

Lemma session_entries_linked reqs : ∀ w,
  entries_linked w → entries_linked (session reqs w).
Proof.
  induction reqs as [|[c0 r] reqs IH]; intros w Hw; [done|].
  change (session ((c0, r) :: reqs) w) with (session reqs (perform c0 r w).2).
  apply IH. intros c p. destruct r as [q|message from to|identity]; cbn [perform].
  - intros [k Hk]. unfold register. cbn [snd chatroom_of].
    destruct (decide (q = p)) as [->|Hne]; [by rewrite lookup_insert_eq|].
    rewrite lookup_insert_ne by done. apply (Hw c). exists k.
    destruct (decide (c0 = c)) as [->|Hc].
    + rewrite participants_register_eq in Hk.
      case_bool_decide; cbn [own] in Hk; [done|].
      apply get_set_Some in Hk as [?|?]; [congruence|done].
    + by rewrite participants_register_ne in Hk.
  - destruct (send_frame c0 message from to w) as (Hrooms & Hlinks).
    unfold participants. rewrite Hrooms, Hlinks. apply Hw.
  - apply Hw.
Qed.

(** X4: Every participant that is an entry of a registry can send: its
    [chatroom] is set, so [p.send] is the [send] of some chatroom. *)
Theorem registered_participant_has_chatroom
    (reqs : list (nat * request)) (c : nat) (p : Participant) :
  entry (participants (session reqs initial_world) c) p →
  ∃ c', chatroom_of (session reqs initial_world) !! p = Some c'
        ∧ ∀ message to,
            Participant_send p message to (session reqs initial_world)
            = send c' message p to (session reqs initial_world).
Proof.
  intros Hentry.
  destruct (session_entries_linked reqs initial_world) with (c := c) (p := p)
    as [c' Hc']; [|done|].
  { intros c0 p0 [k Hk]. done. }
  exists c'. split; [done|]. intros message to. unfold Participant_send.
  by rewrite Hc'.
Qed.

Lemma registered_participant_witness :
  ∃ c', chatroom_of (session [(0, Register yoko); (1, Register yoko)] initial_world)
          !! yoko = Some c'
        ∧ ∀ message to,
            Participant_send yoko message to
              (session [(0, Register yoko); (1, Register yoko)] initial_world)
            = send c' message yoko to
                (session [(0, Register yoko); (1, Register yoko)] initial_world).
Proof.
  apply (registered_participant_has_chatroom
           [(0, Register yoko); (1, Register yoko)] 0 yoko).
  exists "Yoko". vm_compute. reflexivity.
Defined.

(** X5: [send] never touches a registry or a back-link, whatever its target:
    it writes one console line per call of [receive], in call order. *)
Theorem send_only_logs (w : world) (c : nat) (message : string)
    (from : Participant) (to : target) :
  rooms (send c message from to w).2 = rooms w
  ∧ chatroom_of (send c message from to w).2 = chatroom_of w
  ∧ console (send c message from to w).2
    = console w
      ++ ((λ d : delivery, name d.2 +:+ " to " +:+ name d.1.1 +:+ ": " +:+ d.1.2)
            <$> new_calls w (send c message from to)).
Proof.
  assert (∃ k ds, send c message from to w = (k, log_deliveries ds w))
    as (k & ds & Hsend).
  { destruct to as [| |p]; cbn [send].
    - rewrite broadcast_spec. eauto.
    - rewrite broadcast_spec. eauto.
    - by exists Normal, [(p, message, from)]. }
  rewrite (new_calls_log_deliveries _ _ _ _ Hsend), Hsend.
  split_and!; reflexivity.
Qed.

Lemma filter_all {A : Type} (P : A → Prop) `{∀ x, Decision (P x)} (l : list A) :
  Forall P l → filter P l = l.
Proof.
  induction 1 as [|x l Hx _ IH]; [done|]. by rewrite filter_cons_True, IH.
Qed.

(** X6: A broadcast from a sender that is no entry of the registry reaches
    every entry. *)
Theorem broadcast_from_outsider_reaches_all (w : world) (c : nat)
    (message : string) (from : Participant) :
  ¬ entry (participants w c) from →
  new_calls w (send c message from Absent)
  = deliveries message from (entries_in_order (participants w c)).
Proof.
  intros Hout. erewrite new_calls_log_deliveries; [|apply broadcast_spec].
  rewrite filter_all; [done|]. apply Forall_forall.
  intros p Hp%in_order_entry ->. done.
Qed.

Lemma broadcast_from_outsider_witness :
  new_calls solo (send 0 "hi" john Absent) = [(yoko, "hi", john)].
Proof.
  apply (broadcast_from_outsider_reaches_all solo 0 "hi" john).
  intros [k Hk]. apply get_Some_elem_of in Hk.
  change (own (participants solo 0)) with [("Yoko", yoko)] in Hk.
  apply list_elem_of_singleton in Hk. injection Hk as _ Heq.
  vm_compute in Heq. discriminate.
Defined.

(** X7: A participant named ["__proto__"] never becomes an entry: [register]
    makes it the prototype of the registry.  From then on, unless a
    participant named ["name"] is registered, every broadcast of the chatroom
    ends in a [TypeError], after the calls to the entries. *)
Theorem proto_name_poisons_the_chatroom (w : world) (c : nat)
    (p from : Participant) (message : string) :
  name p = "__proto__" →
  "name" ∉ (own (participants w c)).*1 →
  let w' := (register c p w).2 in
  own (participants w' c) = own (participants w c)
  ∧ chatroom_of w' !! p = Some c
  ∧ send c message from Absent w'
    = (Thrown TypeError,
       log_deliveries
         (deliveries message from
            (filter (λ q, q ≠ from) (entries_in_order (participants w c))))
         w').
Proof.
  intros Hname Hfree w'.
  assert (participants w' c = Registry (own (participants w c)) (Some p)) as Hr.
  { unfold w'. rewrite participants_register_eq. by rewrite bool_decide_true. }
  split_and!.
  - by rewrite Hr.
  - unfold w', register. simpl. apply lookup_insert_eq.
  - cbn [send]. rewrite broadcast_spec, Hr.
    unfold inherited_keys, entries_in_order. cbn [own proto List.filter].
    by rewrite bool_decide_true.
Qed.

Lemma proto_name_witness :
  send 0 "hi" john Absent (register 0 proto_named solo).2
  = (Thrown TypeError,
     log_deliveries [(yoko, "hi", john)] (register 0 proto_named solo).2).
Proof.
  apply (proto_name_poisons_the_chatroom solo 0 proto_named john "hi").
  - reflexivity.
  - apply (bool_decide_unpack _). vm_compute. exact I.
Defined.

(** *** The order of a broadcast *)

Lemma insert_index_perm e l : insert_index e l ≡ₚ e :: l.
Proof.
  induction l as [|x l IH]; simpl; [done|].
  destruct (e.1 <=? x.1)%N; [done|]. rewrite IH. apply Permutation_swap.
Qed.

Lemma sort_indices_perm l : sort_indices l ≡ₚ l.
Proof.
  induction l as [|x l IH]; simpl; [done|].
  by rewrite insert_index_perm, IH.
Qed.

Lemma insert_index_sorted e l :
  StronglySorted (λ a b : N * string, (a.1 ≤ b.1)%N) l →
  StronglySorted (λ a b : N * string, (a.1 ≤ b.1)%N) (insert_index e l).
Proof.
  induction 1 as [|x l Hl IH Hx]; simpl.
  - repeat constructor.
  - destruct (N.leb_spec e.1 x.1) as [Hle|Hlt].
    + constructor; [by constructor|]. constructor; [done|].
      eapply Forall_impl; [exact Hx|]. simpl. lia.
    + constructor; [done|]. apply Forall_forall.
      intros y [->|Hy]%insert_index_elem_of; [lia|].
      by apply (proj1 (Forall_forall _ _) Hx).
Qed.

Lemma sort_indices_sorted l :
  StronglySorted (λ a b : N * string, (a.1 ≤ b.1)%N) (sort_indices l).
Proof.
  induction l as [|x l IH]; simpl; [constructor|]. by apply insert_index_sorted.
Qed.

Lemma index_keys_spec keys :
  Forall (λ e : N * string, array_index e.2 = Some e.1) (index_keys keys)
  ∧ (index_keys keys).*2 = List.filter is_array_index keys.
Proof.
  unfold index_keys, is_array_index.
  induction keys as [|k keys [IH1 IH2]]; [by split|]. csimpl.
  destruct (array_index k) eqn:Hk; csimpl; [|done].
  split; [by constructor | by rewrite IH2].
Qed.

Lemma sorted_values (l : list (N * string)) :
  Forall (λ e : N * string, array_index e.2 = Some e.1) l →
  StronglySorted (λ a b : N * string, (a.1 ≤ b.1)%N) l →
  StronglySorted (λ a b, (index_value a ≤ index_value b)%N) l.*2.
Proof.
  intros Hl Hs. induction Hs as [|x l Hs IH Hx]; csimpl; [constructor|].
  apply Forall_cons in Hl as [Hx' Hl]. constructor; [by apply IH|].
  apply Forall_fmap, Forall_forall. intros y Hy. simpl.
  unfold index_value. rewrite Hx', (proj1 (Forall_forall _ _) Hl y Hy). simpl.
  by apply (proj1 (Forall_forall _ _) Hx).
Qed.

Lemma names_in_order r :
  registry_ok r → name <$> entries_in_order r = own_property_keys (own r).*1.
Proof.
  intros Hok. unfold entries_in_order.
  assert (∀ ks : list string, (∀ k, k ∈ ks → k ∈ (own r).*1) →
            name <$> omap (λ k, get k (own r)) ks = ks) as Hks.
  { induction ks as [|k ks IH]; intros Hin; [done|]. csimpl.
    destruct (get_is_Some k (own r)) as [p Hp]; [apply Hin; left|].
    rewrite Hp. csimpl. rewrite IH by (intros k' ?; apply Hin; by right).
    f_equal. apply get_Some_elem_of in Hp.
    symmetry. apply (proj1 (Forall_forall _ _) (ok_named _ Hok) _ Hp). }
  apply Hks. intros k Hk. by rewrite own_property_keys_elem_of in Hk.
Qed.

(** X8: The loop [for (key in participants)] meets the names that are array
    indices first, in ascending numeric order, and then the other names in
    the order of their first registration; the broadcast calls the
    participants in that order, the sender left out. *)
Theorem broadcast_meets_array_indices_first (w : world) (c : nat)
    (message : string) (from : Participant) :
  registry_ok (participants w c) →
  ∃ idx rest,
    name <$> entries_in_order (participants w c) = idx ++ rest
    ∧ idx ≡ₚ List.filter is_array_index (own (participants w c)).*1
    ∧ StronglySorted (λ a b, (index_value a ≤ index_value b)%N) idx
    ∧ rest = List.filter (λ k, negb (is_array_index k)) (own (participants w c)).*1
    ∧ new_calls w (send c message from Absent)
      = deliveries message from
          (filter (λ p, p ≠ from) (entries_in_order (participants w c))).
Proof.
  intros Hok.
  exists (sort_indices (index_keys (own (participants w c)).*1)).*2,
         (List.filter (λ k, negb (is_array_index k)) (own (participants w c)).*1).
  destruct (index_keys_spec (own (participants w c)).*1) as [Hidx Hkeys].
  split_and!.
  - rewrite names_in_order by done. reflexivity.
  - rewrite <-Hkeys. apply fmap_Permutation, sort_indices_perm.
  - apply sorted_values; [|apply sort_indices_sorted].
    apply Forall_forall. intros e He. rewrite sort_indices_elem_of in He.
    by apply (proj1 (Forall_forall _ _) Hidx).
  - done.
  - eapply new_calls_log_deliveries. apply broadcast_spec.
Qed.

Lemma broadcast_order_witness :
  ∃ idx rest,
    name <$> entries_in_order (participants numbered 0) = idx ++ rest
    ∧ idx ≡ₚ List.filter is_array_index (own (participants numbered 0)).*1
    ∧ StronglySorted (λ a b, (index_value a ≤ index_value b)%N) idx
    ∧ rest = List.filter (λ k, negb (is_array_index k)) (own (participants numbered 0)).*1
    ∧ new_calls numbered (send 0 "hi" alpha Absent)
      = deliveries "hi" alpha
          (filter (λ p, p ≠ alpha) (entries_in_order (participants numbered 0))).
Proof.
  apply (broadcast_meets_array_indices_first numbered 0 "hi" alpha).
  split; apply (bool_decide_unpack _); vm_compute; exact I.
Defined.

(** X9: In every world that requests build from the initial one, every registry
    is well formed: no name twice, every entry stored under the name of its
    participant, and no own key ["__proto__"]. *)
Theorem reachable_registries_are_well_formed (reqs : list (nat * request)) (c : nat) :
  registry_ok (participants (session reqs initial_world) c).
Proof. apply session_ok. intros c'. apply empty_registry_ok. Qed.

(** *** Eviction and separate chatrooms *)

(** X10: A participant that was overwritten by another object of the same name
    is no entry any more and gets no broadcast of the chatroom, but it keeps
    its [chatroom]: its own broadcast goes out and reaches the object that
    replaced it. *)
Theorem evicted_participant_still_sends (w : world) (c : nat)
    (p1 p2 : Participant) (message : string) :
  registry_ok (participants w c) →
  name p1 = name p2 →
  name p1 ≠ "__proto__" →
  p1 ≠ p2 →
  let w2 := (register c p2 (register c p1 w).2).2 in
  ¬ entry (participants w2 c) p1
  ∧ (∀ from, (p1, message, from) ∉ new_calls w2 (send c message from Absent))
  ∧ (p2, message, p1) ∈ new_calls w2 (Participant_send p1 message Absent).
Proof.
  intros Hok Hname Hproto Hne w2.
  assert (own (participants w2 c)
          = set (name p2) p2 (set (name p1) p1 (own (participants w c)))) as Hown.
  { unfold w2. rewrite participants_register_eq, bool_decide_false by congruence.
    cbn [own]. by rewrite participants_register_eq, bool_decide_false. }
  assert (¬ entry (participants w2 c) p1) as Hgone.
  { intros [k Hk]. rewrite Hown, <-Hname in Hk.
    destruct (decide (name p1 = k)) as [<-|Hk'].
    - rewrite get_set_eq in Hk. congruence.
    - rewrite !get_set_ne in Hk by done. apply get_Some_elem_of in Hk.
      apply Hk'. symmetry.
      apply (proj1 (Forall_forall _ _) (ok_named _ Hok) _ Hk). }
  split_and!; [done| |].
  - intros from Hin.
    erewrite new_calls_log_deliveries in Hin; [|apply broadcast_spec].
    apply list_elem_of_fmap in Hin as (q & [= <-] & [_ Hq]%list_elem_of_filter).
    by apply in_order_entry in Hq.
  - assert (chatroom_of w2 !! p1 = Some c) as Hlink.
    { unfold w2, register. simpl. rewrite lookup_insert_ne by done.
      apply lookup_insert_eq. }
    erewrite new_calls_log_deliveries.
    2:{ unfold Participant_send. rewrite Hlink. cbn [send]. apply broadcast_spec. }
    apply list_elem_of_fmap. exists p2. split; [done|].
    apply list_elem_of_filter. split; [done|]. apply entry_in_order.
    exists (name p2). rewrite Hown. apply get_set_eq.
Qed.

Lemma evicted_participant_witness :
  (second_x, "hi", first_x) ∈ new_calls overwritten (Participant_send first_x "hi" Absent).
Proof.
  apply (evicted_participant_still_sends initial_world 0 first_x second_x "hi").
  - split; apply (bool_decide_unpack _); vm_compute; exact I.
  - reflexivity.
  - vm_compute. discriminate.
  - vm_compute. discriminate.
Defined.

(** X11: Each chatroom has its own registry: requests to other chatrooms leave
    the registry of [c] as it is. *)
Theorem chatrooms_are_independent (w : world) (c : nat) (reqs : list (nat * request)) :
  Forall (λ cr : nat * request, cr.1 ≠ c) reqs →
  participants (session reqs w) c = participants w c.
Proof.
  revert w. induction reqs as [|[c0 r] reqs IH]; intros w Hreqs; [done|].
  apply Forall_cons in Hreqs as [Hc Hreqs]. simpl in Hc.
  change (session ((c0, r) :: reqs) w) with (session reqs (perform c0 r w).2).
  rewrite IH by done. destruct r as [q|message from to|identity]; cbn [perform].
  - by apply participants_register_ne.
  - unfold participants. by rewrite (proj1 (send_frame c0 message from to w)).
  - done.
Qed.

Lemma chatrooms_are_independent_witness :
  participants (session [(1, Register john); (1, Send "hi" john Absent)] solo) 0
  = participants solo 0.
Proof.
  apply (chatrooms_are_independent solo 0
           [(1, Register john); (1, Send "hi" john Absent)]).
  apply Forall_cons; split; [|apply Forall_cons; split; [|constructor]];
    vm_compute; discriminate.
Defined.

End MediatorExtras.

(** ** More about the click list *)
Module ObserverExtras.
Import JS JSFacts Observer ObserverProofs Scenarios.Clicks MoreScenarios.Clicks.
Local Open Scope observer_scope.

(** The callback of [unsubscribe] keeps an item exactly when the item is
    truthy and is not the function to remove. *)
Lemma unsubscribe_callback_keeps fn item :
  truthy (unsubscribe_callback fn item) = true ↔ truthy item = true ∧ item ≠ fn.
Proof.
  unfold unsubscribe_callback.
  destruct (strict_equal item fn) eqn:Heq; simpl.
  - split; [done|]. intros [Ht Hne]. exfalso. apply Hne.
    destruct item, fn; simpl in Heq; try done; by apply bool_decide_eq_true in Heq.
  - split; [|tauto]. intros Ht. split; [done|]. intros ->.
    destruct fn; simpl in Heq, Ht; try done;
      by rewrite bool_decide_true in Heq.
Qed.

Lemma array_filter_spec fn l :
  array_filter (unsubscribe_callback fn) l
  = filter (λ item, truthy item = true ∧ item ≠ fn) l.
Proof.
  unfold array_filter. induction l as [|item l IH]; [done|]. simpl.
  rewrite filter_cons, IH.
  destruct (truthy (unsubscribe_callback fn item)) eqn:Hkeep.
  - apply unsubscribe_callback_keeps in Hkeep. by rewrite decide_True.
  - rewrite decide_False; [done|]. intros Hitem%unsubscribe_callback_keeps.
    congruence.
Qed.

(** X12: [unsubscribe(fn)] keeps the truthy entries other than [fn], in their
    order, and nothing else: an entry that is [undefined], [null], [false],
    [0], [NaN] or the empty string goes with any [unsubscribe]. *)
Theorem unsubscribe_keeps_truthy_others (w : world) (fn : value) :
  (unsubscribe fn w).1 = Normal
  ∧ this_handlers (unsubscribe fn w).2
    = filter (λ item, truthy item = true ∧ item ≠ fn) (this_handlers w).
Proof.
  split; [done|]. rewrite this_handlers_unsubscribe. apply array_filter_spec.
Qed.

(** X13: Unsubscribing a handler that is not subscribed leaves the list as it
    is, provided every entry is truthy. *)
Theorem unsubscribe_absent_is_noop (w : world) (fn : value) :
  Forall (λ item, truthy item = true) (this_handlers w) →
  fn ∉ this_handlers w →
  this_handlers (unsubscribe fn w).2 = this_handlers w.
Proof.
  intros Htruthy Habsent. rewrite this_handlers_unsubscribe, array_filter_spec.
  generalize dependent (this_handlers w). intros l.
  induction 1 as [|item l Hitem _ IH]; intros Habsent; [done|].
  apply not_elem_of_cons in Habsent as [Hne Habsent].
  rewrite filter_cons_True by done. by rewrite IH.
Qed.

Lemma unsubscribe_absent_witness :
  this_handlers (unsubscribe (VFunction 5) two_handlers).2 = this_handlers two_handlers.
Proof.
  apply (unsubscribe_absent_is_noop two_handlers (VFunction 5)).
  - apply (bool_decide_unpack _). vm_compute. exact I.
  - apply (bool_decide_unpack _). vm_compute. exact I.
Defined.

(** X14: Two [unsubscribe] calls leave the same list in either order. *)
Theorem unsubscribe_commutes (w : world) (f g : value) :
  this_handlers (unsubscribe g (unsubscribe f w).2).2
  = this_handlers (unsubscribe f (unsubscribe g w).2).2.
Proof.
  rewrite !this_handlers_unsubscribe, !array_filter_spec, !list_filter_filter.
  apply list_filter_iff. tauto.
Qed.

(** X15: [subscribe(h)] followed by [unsubscribe(h)] leaves what [unsubscribe(h)]
    alone leaves: the new entry goes, and so does every older entry equal
    to [h]. *)
Theorem unsubscribe_after_subscribe (w : world) (h : value) :
  this_handlers (unsubscribe h (subscribe h w).2).2
  = this_handlers (unsubscribe h w).2.
Proof.
  rewrite !this_handlers_unsubscribe, this_handlers_subscribe, !array_filter_spec.
  rewrite filter_app, filter_cons_False, filter_nil, app_nil_r; [done|].
  intros [_ Hne]. done.
Qed.

Section Fire.
Variable code : nat → value → list action.

Lemma snapshot_pass_non_function sc o before v after :
  Forall (quiet code o) before →
  (∀ f, v ≠ VFunction f) →
  snapshot_pass code sc o (before ++ v :: after)
  = (Thrown TypeError, invocations sc o before).
Proof.
  intros Hquiet Hv.
  induction Hquiet as [|item l (f & -> & Hf) _ IH]; cbn [app snapshot_pass].
  - destruct v; try done. by destruct (Hv f).
  - rewrite bool_decide_false by done. by rewrite IH.
Qed.

Lemma perform_effect a w :
  this_handlers (perform a w).2 = effect a (this_handlers w).
Proof.
  destruct a; cbn [perform effect]; [|by rewrite this_handlers_unsubscribe|done..].
  by rewrite this_handlers_subscribe.
Qed.

Lemma body_effects acts : ∀ w,
  Do_throw ∉ acts →
  (for_each perform acts w).1 = Normal
  ∧ this_handlers (for_each perform acts w).2 = effects acts (this_handlers w).
Proof.
  induction acts as [|a acts IH]; intros w Hno; [done|].
  apply not_elem_of_cons in Hno as [Ha Hno].
  cbn [for_each]. unfold and_then.
  pose proof (perform_effect a w) as Heff.
  destruct a; try done; cbn [perform subscribe unsubscribe] in *;
    cbn [effects foldl]; rewrite <-Heff; by apply IH.
Qed.

Lemma dispatch_effects sc o l : ∀ w,
  Forall (quiet code o) l →
  this_handlers (dispatch code sc o l w).2
  = effects (pass_actions code o l) (this_handlers w).
Proof.
  induction l as [|item l IH]; intros w Hquiet; [done|].
  apply Forall_cons in Hquiet as [(f & -> & Hf) Hquiet].
  cbn [dispatch for_each]. unfold and_then. cbn [call].
  set (w1 := World (arrays w) (handlers w) (console w) (invoked w ++ [(f, sc, o)])).
  destruct (body_effects (code f o) w1 Hf) as [Hk Heff].
  destruct (for_each perform (code f o) w1) as [k w2]. simpl in Hk, Heff.
  subst k. fold (dispatch code sc o l). rewrite IH by done.
  unfold pass_actions, effects. cbn [mbind list_bind]. rewrite foldl_app.
  by rewrite Heff.
Qed.

Lemma snapshot_pass_invoked sc o l f sc' o' :
  (f, sc', o') ∈ (snapshot_pass code sc o l).2 → VFunction f ∈ l.
Proof.
  induction l as [|item l IH]; [by intros ?%elem_of_nil|].
  destruct item as [| | | | | |g]; cbn [snapshot_pass];
    try by intros ?%elem_of_nil.
  case_bool_decide; cbn [snd].
  - intros Hx%list_elem_of_singleton. injection Hx as Hf _ _. subst. left.
  - intros [Hx|Hin]%elem_of_cons; [|right; by apply IH].
    injection Hx as Hf _ _. subst. left.
Qed.

End Fire.

Lemma effect_keeps_absent v a l :
  a ≠ Do_subscribe v → v ∉ l → v ∉ effect a l.
Proof.
  intros Ha Hv. destruct a as [fn|fn| |]; cbn [effect]; [| |done..].
  - rewrite elem_of_app, list_elem_of_singleton. intros [?| ->]; [done|]. by apply Ha.
  - rewrite array_filter_spec, list_elem_of_filter. tauto.
Qed.

Lemma effects_keep_absent v acts : ∀ l,
  Forall (λ a, a ≠ Do_subscribe v) acts → v ∉ l → v ∉ effects acts l.
Proof.
  induction acts as [|a acts IH]; intros l Hacts Hv; [done|].
  apply Forall_cons in Hacts as [Ha Hacts]. cbn [effects foldl].
  apply IH; [done|]. by apply effect_keeps_absent.
Qed.

Lemma effects_remove v acts : ∀ l,
  Forall (λ a, a ≠ Do_subscribe v) acts →
  Do_unsubscribe v ∈ acts →
  v ∉ effects acts l.
Proof.
  induction acts as [|a acts IH]; intros l Hacts Hin; [by apply elem_of_nil in Hin|].
  apply Forall_cons in Hacts as [Ha Hacts]. cbn [effects foldl].
  apply elem_of_cons in Hin as [<-|Hin]; [|by apply IH].
  apply effects_keep_absent; [done|]. cbn [effect].
  rewrite array_filter_spec, list_elem_of_filter. tauto.
Qed.

(** X16: [subscribe] does not check what it is handed, and [fire] calls
    what it finds: at the first entry that is a primitive value
    ([undefined], [null], a boolean, a number, [NaN] or a string) the pass
    ends in a [TypeError], after the calls of the functions before it. *)
Theorem fire_stops_at_a_primitive_entry
    (code : nat → value → list action) (w : world) (o thisObj : value)
    (before after : list value) (v : value) :
  this_handlers w = before ++ v :: after →
  Forall (quiet code o) before →
  is_primitive v = true →
  (fire code o thisObj w).1 = Thrown TypeError
  ∧ new_invoked w (fire code o thisObj)
    = invocations (scope_of thisObj) o before.
Proof.
  intros Hw Hquiet Hv.
  destruct (dispatch_snapshot code (scope_of thisObj) o (this_handlers w) w)
    as [Hk Hinv].
  rewrite <-fire_dispatch in Hk, Hinv.
  rewrite Hw, snapshot_pass_non_function in Hk, Hinv;
    [|done|by intros f ->|done|by intros f ->].
  cbn [fst snd] in Hk, Hinv. split; [done|]. by apply new_invoked_app.
Qed.

Lemma fire_stops_witness :
  (fire logging_code (VString "e") VUndefined with_zero).1 = Thrown TypeError
  ∧ new_invoked with_zero (fire logging_code (VString "e") VUndefined)
    = [(0, GlobalObject, VString "e")].
Proof.
  apply (fire_stops_at_a_primitive_entry logging_code with_zero (VString "e") VUndefined
           [VFunction 0] [VFunction 1] (VNumber 0)).
  - vm_compute. reflexivity.
  - apply Forall_cons. split; [|constructor]. exists 0. split; [reflexivity|].
    apply (bool_decide_unpack _). vm_compute. exact I.
  - reflexivity.
Defined.

(** X17: What the handlers of a pass subscribe and unsubscribe is all applied,
    in call order, to the list that the next pass will see. *)
Theorem pass_applies_membership_changes
    (code : nat → value → list action) (w : world) (o thisObj : value) :
  Forall (quiet code o) (this_handlers w) →
  this_handlers (fire code o thisObj w).2
  = effects (pass_actions code o (this_handlers w)) (this_handlers w).
Proof.
  intros Hquiet. rewrite fire_dispatch. by apply dispatch_effects.
Qed.

Lemma pass_applies_witness :
  this_handlers (fire unsubscribing_code (VString "e") VUndefined two_handlers).2
  = effects (pass_actions unsubscribing_code (VString "e") (this_handlers two_handlers))
            (this_handlers two_handlers).
Proof.
  apply (pass_applies_membership_changes
           unsubscribing_code two_handlers (VString "e") VUndefined).
  change (this_handlers two_handlers) with [VFunction 0; VFunction 1].
  apply Forall_cons; split; [|apply Forall_cons; split; [|constructor]];
    (eexists; split; [reflexivity|]; apply (bool_decide_unpack _); vm_compute; exact I).
Defined.

(** X18: A function that a handler of the pass unsubscribes, and that no
    handler of the pass subscribes, is not in the list after the pass, and
    the next pass does not call it. *)
Theorem unsubscribed_in_a_pass_is_not_called_again
    (code : nat → value → list action) (w : world) (o thisObj o' thisObj' : value)
    (f : nat) :
  Forall (quiet code o) (this_handlers w) →
  Forall (λ a, a ≠ Do_subscribe (VFunction f))
         (pass_actions code o (this_handlers w)) →
  Do_unsubscribe (VFunction f) ∈ pass_actions code o (this_handlers w) →
  let w' := (fire code o thisObj w).2 in
  (VFunction f ∉ this_handlers w')
  ∧ (∀ call, call ∈ new_invoked w' (fire code o' thisObj') → call.1.1 ≠ f).
Proof.
  intros Hquiet Hsub Hunsub w'.
  assert (VFunction f ∉ this_handlers w') as Hgone.
  { unfold w'. rewrite fire_dispatch, dispatch_effects by done.
    by apply effects_remove. }
  split; [done|]. intros [[g sc] e] Hcall Hg. simpl in Hg. subst g.
  destruct (dispatch_snapshot code (scope_of thisObj') o' (this_handlers w') w')
    as [_ Hinv].
  rewrite <-fire_dispatch in Hinv. apply new_invoked_app in Hinv.
  rewrite Hinv in Hcall. by apply snapshot_pass_invoked in Hcall.
Qed.

Lemma unsubscribed_in_a_pass_witness :
  VFunction 0
  ∉ this_handlers (fire unsubscribing_code (VString "e") VUndefined two_handlers).2.
Proof.
  apply (unsubscribed_in_a_pass_is_not_called_again
           unsubscribing_code two_handlers
           (VString "e") VUndefined (VString "e") VUndefined 0).
  - change (this_handlers two_handlers) with [VFunction 0; VFunction 1].
    apply Forall_cons; split; [|apply Forall_cons; split; [|constructor]];
      (eexists; split; [reflexivity|]; apply (bool_decide_unpack _); vm_compute; exact I).
  - apply (bool_decide_unpack _). vm_compute. exact I.
  - apply (bool_decide_unpack _). vm_compute. exact I.
Defined.

End ObserverExtras.

(** ** The iterator *)
Module IteratorProofs.
Import Iterator.

Section Iterator.
Context {V : Type} (undefined : V).

Lemma each_loop_from {St : Type} (callback : V → St → St) (l : list V) :
  ∀ m k s fuel,
    m + k = length l →
    m < fuel →
    each_loop undefined callback fuel (default undefined (l !! k))
      (Build_iterator (S k) l) s
    = Some (foldl (λ s item, callback item s) s (drop k l),
            Build_iterator (S (length l)) l).
Proof.
  induction m as [|m IH]; intros k s fuel Hk Hfuel;
    (destruct fuel as [|fuel]; [lia|]); cbn [each_loop].
  - assert (k = length l) as -> by lia.
    unfold hasNext. cbn [index items].
    rewrite (proj2 (Nat.leb_gt _ _)) by lia. by rewrite drop_all.
  - unfold hasNext. cbn [index items].
    rewrite (proj2 (Nat.leb_le _ _)) by lia. cbn [next index items].
    destruct (lookup_lt_is_Some_2 l k) as [x Hx]; [lia|].
    rewrite (drop_S _ _ _ Hx), Hx. cbn [default foldl].
    apply IH; lia.
Qed.

End Iterator.

(** X19: [each] calls the callback on every item, in order and once each,
    wherever the iterator stood before, and leaves the index one past the
    length; the loop ends by [hasNext], for any fuel above the length. *)
Theorem each_visits_every_item_in_order {V St : Type} (undefined : V)
    (callback : V → St → St) (this : iterator) (s : St) (fuel : nat) :
  length (items this) < fuel →
  each undefined callback fuel this s
  = Some (foldl (λ s item, callback item s) s (items this),
          Build_iterator (S (length (items this))) (items this)).
Proof.
  intros Hfuel. unfold each, first, next, reset. cbn [index items].
  rewrite (each_loop_from undefined callback (items this) (length (items this)) 0);
    [done|lia|done].
Qed.

Lemma each_visits_witness :
  each 0 (λ item log, log ++ [item]) 4 (Build_iterator 2 [10; 20; 30]) []
  = Some ([10; 20; 30], Build_iterator 4 [10; 20; 30]).
Proof.
  apply (each_visits_every_item_in_order 0 (λ item log, log ++ [item])
           (Build_iterator 2 [10; 20; 30]) [] 4).
  simpl. lia.
Defined.

Lemma index_advance {V : Type} (undefined : V) n (this : iterator) :
  index (advance undefined n this) = n + index this
  ∧ items (advance undefined n this) = items this.
Proof.
  induction n as [|n [IH1 IH2]]; [done|].
  change (advance undefined (S n) this)
    with (next undefined (advance undefined n this)).2.
  unfold next. cbn [snd index items]. split; [lia|done].
Qed.

(** X20: [hasNext] compares with [<=]: on a new iterator, after as many calls of
    [next] as there are items, [hasNext] still holds and [next] gives
    [undefined]; only then [hasNext] fails. *)
Theorem hasNext_holds_once_past_the_end {V : Type} (undefined : V) (l : list V) :
  let at_end := advance undefined (length l) (new_Iterator l) in
  hasNext at_end = true
  ∧ (next undefined at_end).1 = undefined
  ∧ hasNext (next undefined at_end).2 = false.
Proof.
  intros at_end.
  destruct (index_advance undefined (length l) (new_Iterator l)) as [Hi Hl].
  fold at_end in Hi, Hl. cbn [new_Iterator index items] in Hi, Hl.
  unfold hasNext, next. cbn [fst snd index items]. rewrite Hi, Hl, Nat.add_0_r.
  split_and!.
  - by apply Nat.leb_le.
  - by rewrite lookup_ge_None_2.
  - apply Nat.leb_gt. lia.
Qed.

End IteratorProofs.
